(** * Verification of the token sampling pipeline ([sample/sample.go])

    The Go package [sample] turns a vector of logits into a selected token
    through a chain of [Sampler]s.  This development embeds the package
    shallowly: [float64] is Rocq's primitive binary64 [float] (same IEEE 754
    operations as Go's), slices are lists, the [([]float64, error)] results
    are a three-way [result] (normal return, error, run-time panic), and the
    in-place writes of the filtering stages are kept visible through the
    [after] field of an [effect].  Rocq's [float] has a single NaN; the
    payloads of Go's NaNs cannot be told apart by the operations used here. *)

From Stdlib Require Import ZArith Floats Uint63 Lia.
From stdpp Require Import base list strings sorting.

Set Warnings "-inexact-float".

(** ** Results of a call *)

(** What a Go call of type [([]float64, error)] can do: return a value with a
    nil error, return [nil] with [errors.New msg], or panic. *)
Inductive result (A : Type) : Type :=
| Ok (v : A)
| Err (msg : string)
| Panic.
Arguments Ok {A} v.
Arguments Err {A} msg.
Arguments Panic {A}.

Definition is_Err {A} (r : result A) : bool :=
  match r with Err _ => true | _ => false end.

(** A stage receives the slice [logits] and may write into its backing array:
    [after] is the content of the caller's slice when the call is over,
    [value] what the call returned. *)
Record effect : Type := Effect { after : list float; value : result (list float) }.

(** [float64(i)] for a slice index [i]. *)
Definition float64_of_int (i : nat) : float := of_uint63 (Uint63.of_Z (Z.of_nat i)).

(** [s[i]] for an index known to be in range: the indices read below come
    from a rearrangement of [0 .. len(s)-1]. *)
Definition at_ (s : list float) (i : nat) : float := default nan (s !! i).

(** ** Go standard library: [math], [cmp], [slices] *)

Module math.

Definition NaN : float := nan.

(** [IsNaN(f)] is [f != f]. *)
Definition IsNaN (f : float) : bool := negb (f =? f)%float.

Definition Signbit (x : float) : bool := get_sign x.

(** [math.Max], with its special cases in the order of the Go source. *)
Definition Max (x y : float) : float :=
  if (x =? infinity)%float || (y =? infinity)%float then infinity
  else if IsNaN x || IsNaN y then NaN
  else if (x =? 0)%float && (x =? y)%float then (if Signbit x then y else x)
  else if (y <? x)%float then x
  else y.

(** [int(x)] for a finite [x]: truncation towards zero. *)
Definition trunc (x : float) : Z :=
  match Prim2SF x with
  | S754_finite s m e =>
      let v := if (0 <=? e)%Z then (Z.pos m * 2 ^ e)%Z else (Z.pos m / 2 ^ (- e))%Z in
      if s then (- v)%Z else v
  | _ => 0%Z
  end.

(** [float64(k)] for a small integer [k]. *)
Definition of_int (k : Z) : float :=
  if (k <? 0)%Z then (- of_uint63 (Uint63.of_Z (- k)))%float
  else of_uint63 (Uint63.of_Z k).

(** The portable implementation of [math.Exp] of the Go distribution
    ([math/exp.go]: argument reduction by multiples of ln 2, a degree-5
    Remez polynomial and [Ldexp]).  [Exp] is a library function, so the
    development below takes it as a parameter and states what it needs of
    it; this definition is the instance used to run concrete inputs. *)
Definition expmulti (hi lo : float) (k : Z) : float :=
  let P1 := 1.66666666666666657415e-01%float in
  let P2 := (-2.77777777770155933842e-03)%float in
  let P3 := 6.61375632143793436117e-05%float in
  let P4 := (-1.65339022054652515390e-06)%float in
  let P5 := 4.13813679705723846039e-08%float in
  let r := (hi - lo)%float in
  let t := (r * r)%float in
  let c := (r - t * (P1 + t * (P2 + t * (P3 + t * (P4 + t * P5)))))%float in
  let y := (1 - ((lo - (r * c) / (2 - c)) - hi))%float in
  Z.ldexp y k.

Definition Exp (x : float) : float :=
  let Ln2Hi := 6.93147180369123816490e-01%float in
  let Ln2Lo := 1.90821492927058770002e-10%float in
  let Log2e := 1.44269504088896338700e+00%float in
  let Overflow := 7.09782712893383973096e+02%float in
  let Underflow := (-7.45133219101941108420e+02)%float in
  let NearZero := 0x1p-28%float in
  if IsNaN x || (x =? infinity)%float then x
  else if (x =? neg_infinity)%float then 0%float
  else if (Overflow <? x)%float then infinity
  else if (x <? Underflow)%float then 0%float
  else if (- NearZero <? x)%float && (x <? NearZero)%float then (1 + x)%float
  else
    let k := if (x <? 0)%float then trunc (Log2e * x - 0.5)
             else if (0 <? x)%float then trunc (Log2e * x + 0.5)
             else 0%Z in
    let hi := (x - of_int k * Ln2Hi)%float in
    let lo := (of_int k * Ln2Lo)%float in
    expmulti hi lo k.

End math.

Module cmp.

(** [cmp.Compare] on [float64]: a NaN is less than any non-NaN, and equal to
    a NaN; [-0.0] equals [0.0]. *)
Definition Compare (x y : float) : Z :=
  let xNaN := math.IsNaN x in
  let yNaN := math.IsNaN y in
  if xNaN then (if yNaN then 0 else -1)
  else if yNaN then 1
  else if (x <? y)%float then -1
  else if (y <? x)%float then 1
  else 0.

End cmp.

Module slices.

(** [insertionSortCmpFunc]: the inner loop moves [data[i]] to the left while
    it compares less than its left neighbour.  [acc] is the sorted prefix,
    last element first. *)
Fixpoint insert_left {A} (cmp : A -> A -> Z) (x : A) (acc : list A) : list A :=
  match acc with
  | [] => [x]
  | y :: acc' => if (cmp x y <? 0)%Z then y :: insert_left cmp x acc' else x :: acc
  end.

(** What [slices.SortFunc] runs on a slice of at most 12 elements (above
    that [pdqsortCmpFunc] partitions first). *)
Definition insertionSortCmpFunc {A} (cmp : A -> A -> Z) (data : list A) : list A :=
  reverse (fold_left (fun acc x => insert_left cmp x acc) data []).

(** [a] sorts strictly before [b]. *)
Definition less {A} (cmp : A -> A -> Z) (a b : A) : Prop := (cmp a b < 0)%Z.

(** "SortFunc requires that cmp is a strict weak ordering": asymmetric and
    negatively transitive. *)
Definition strict_weak {A} (cmp : A -> A -> Z) : Prop :=
  (forall a b, less cmp a b -> ~ less cmp b a) /\
  (forall a b c, less cmp a c -> less cmp a b \/ less cmp b c).

(** The contract of [slices.SortFunc] (and of [slices.Sort], which is
    [SortFunc] with [cmp.Compare]): the slice is rearranged, and afterwards
    no element sorts strictly before an element to its left.  The sort is
    not stable, so nothing more is known about ties. *)
Definition sorts (sortFunc : forall A, (A -> A -> Z) -> list A -> list A) : Prop :=
  forall A (cmp : A -> A -> Z) (x : list A),
    sortFunc A cmp x ≡ₚ x /\
    (strict_weak cmp -> StronglySorted (fun a b => ~ less cmp b a) (sortFunc A cmp x)).

End slices.

(** ** gonum: [floats] and [sampleuv] *)

Module floats.

(** The loop of [floats.MaxIdx]: NaN entries are skipped, a later entry
    replaces the maximum only when strictly greater. *)
Fixpoint MaxIdx_loop (s : list float) (i : nat) (max : float) (ind : nat) : nat :=
  match s with
  | [] => ind
  | v :: s' =>
      if math.IsNaN v then MaxIdx_loop s' (S i) max ind
      else if (max <? v)%float || math.IsNaN max then MaxIdx_loop s' (S i) v i
      else MaxIdx_loop s' (S i) max ind
  end.

(** [None] is [panic(zeroLength)]. *)
Definition MaxIdx (s : list float) : option nat :=
  match s with
  | [] => None
  | _ => Some (MaxIdx_loop s 0 math.NaN 0)
  end.

(** [Max(s)] is [s[MaxIdx(s)]]. *)
Definition Max (s : list float) : option float :=
  match MaxIdx s with
  | Some i => Some (at_ s i)
  | None => None
  end.

(** The portable loop of [Sum] ([sum := 0.0; for _, v := range s { sum += v }]):
    accumulation from the left, starting at 0.  On amd64 gonum replaces the
    loop by an assembly kernel that adds the terms in another order (partial
    sums over interleaved positions), which rounds differently from four
    terms on.  [Sum] is library code, so the package below takes it as a
    parameter and the proofs use of it only that a NaN term makes the sum
    NaN.  This definition is the instance used to run inputs of at most
    three scores, where both orders agree. *)
Definition Sum (s : list float) : float := fold_left (fun sum v => (sum + v)%float) s 0%float.

(** [Scale(c, dst)]: [dst[i] *= c]. *)
Definition Scale (c : float) (dst : list float) : list float := map (fun v => (v * c)%float) dst.

End floats.

Module sampleuv.

(** Outcome of [NewWeighted(w, nil).Take()]: an index with [ok = true],
    [ok = false], or a panic inside the library. *)
Inductive taken : Type :=
| Took (v : nat)
| NotTaken
| TakePanic.

(** The draw when the random source returns 0: the first item. *)
Definition take_first (w : list float) : taken :=
  match w with
  | [] => NotTaken
  | _ => Took 0
  end.

End sampleuv.

(** ** Package [sample] *)

Inductive Sampler : Type :=
| Temperature (t : float)
| softmax
| TopK (k : Z)
| TopP (p : float)   (* a float32; its value is kept as the binary64 that [float64(p)] gives *)
| MinP (p : float)   (* idem *)
| weighed
| greedy.

Definition Softmax : Sampler := softmax.
Definition Weighed : Sampler := weighed.
Definition Greedy : Sampler := greedy.

(** [return nil, errors.New(msg)] before anything was written. *)
Definition fail (logits : list float) (msg : string) : effect :=
  {| after := logits; value := Err msg |}.

(** Return of the slice the stage has written into. *)
Definition done_in_place (logits' : list float) : effect :=
  {| after := logits'; value := Ok logits' |}.

(** [for _, idx := range drop { logits[idx] = math.NaN() }] *)
Definition exclude (drop : list nat) (logits : list float) : list float :=
  fold_left (fun l idx => <[idx := math.NaN]> l) drop logits.

(** The loop of [weighed.Sample]: the non-NaN logits and their indices. *)
Fixpoint compact (i : nat) (logits : list float) : list float * list nat :=
  match logits with
  | [] => ([], [])
  | logit :: rest =>
      let '(logitsCopy, indices) := compact (S i) rest in
      if math.IsNaN logit then (logitsCopy, indices) else (logit :: logitsCopy, i :: indices)
  end.

(** The loop of [TopP.Sample]: accumulates [probs[idx]] along [indices] and
    returns [indices[i+1:]] at the first [i] where the sum exceeds [p], or
    nothing when the loop runs to its end. *)
Fixpoint TopP_cut (p : float) (probs : list float) (indices : list nat) (cumSum : float) : list nat :=
  match indices with
  | [] => []
  | idx :: rest =>
      let cumSum := (cumSum + at_ probs idx)%float in
      if (p <? cumSum)%float then rest else TopP_cut p probs rest cumSum
  end.

(** [sampler == Temperature(0)]: equal dynamic types and [==] on the values. *)
Definition is_Temperature0 (sampler : Sampler) : bool :=
  match sampler with
  | Temperature t => (t =? 0)%float
  | _ => false
  end.

Section sample.

(** [math.Exp], [floats.Sum], [slices.SortFunc] and the weighted draw are
    library code. *)
Variable exp : float -> float.
Variable Sum : list float -> float.
Variable sortFunc : forall A, (A -> A -> Z) -> list A -> list A.
Variable Take : list float -> sampleuv.taken.

Definition Temperature_Sample (t : float) (logits : list float) : effect :=
  if (t <? 0)%float || (2 <? t)%float then fail logits "temperature must be between 0 and 2"
  else
    match floats.Max logits with
    | None => {| after := logits; value := Panic |}
    | Some maxLogit =>
        let temp := math.Max t 1e-7 in
        done_in_place (map (fun x => ((x - maxLogit) / temp)%float) logits)
    end.

Definition computeSoftmax (logits : list float) : list float :=
  let copiedLogits := map exp logits in
  let floatSum := Sum copiedLogits in
  floats.Scale (1.0 / floatSum)%float copiedLogits.

Definition softmax_Sample (logits : list float) : effect :=
  {| after := logits; value := Ok (computeSoftmax logits) |}.

Definition TopK_Sample (k : Z) (logits : list float) : effect :=
  if (k <=? 0)%Z then fail logits "k must be positive"
  else if (Z.of_nat (length logits) <=? k)%Z then done_in_place logits
  else
    let indices :=
      sortFunc nat (fun i j => cmp.Compare (at_ logits j) (at_ logits i)) (seq 0 (length logits)) in
    done_in_place (exclude (drop (Z.to_nat k) indices) logits).

Definition TopP_Sample (p : float) (logits : list float) : effect :=
  if (p <=? 0)%float || (1 <=? p)%float then fail logits "p must be between 0 and 1"
  else
    let probs := computeSoftmax logits in
    let indices :=
      sortFunc nat (fun i j => cmp.Compare (at_ probs j) (at_ probs i)) (seq 0 (length probs)) in
    done_in_place (exclude (TopP_cut p probs indices 0) logits).

Definition MinP_Sample (p : float) (logits : list float) : effect :=
  if (p <=? 0)%float || (1 <=? p)%float then fail logits "p must be between 0 and 1"
  else
    let probs := computeSoftmax logits in
    let copiedProbs := sortFunc float cmp.Compare probs in
    match last copiedProbs with
    | None => {| after := logits; value := Panic |}
    | Some maxProb =>
        let probThreshold := (p * maxProb)%float in
        done_in_place
          (zip_with (fun prob logit => if (prob <? probThreshold)%float then math.NaN else logit)
             probs logits)
    end.

Definition weighed_Sample (logits : list float) : effect :=
  let '(logitsCopy, indices) := compact 0 logits in
  if (length logitsCopy =? 0)%nat then fail logits "no valid tokens found"
  else
    let w := computeSoftmax logitsCopy in
    match Take w with
    | sampleuv.Took v =>
        match indices !! v with
        | Some idx => {| after := logits; value := Ok [float64_of_int idx] |}
        | None => {| after := logits; value := Panic |}
        end
    | sampleuv.NotTaken => fail logits "weighed sampler failed"
    | sampleuv.TakePanic => {| after := logits; value := Panic |}
    end.

Definition greedy_Sample (logits : list float) : effect :=
  match floats.MaxIdx logits with
  | Some ind => {| after := logits; value := Ok [float64_of_int ind] |}
  | None => {| after := logits; value := Panic |}
  end.

(** Dispatch of [sampler.Sample(logits)] on the dynamic type. *)
Definition Sampler_Sample (sampler : Sampler) (logits : list float) : effect :=
  match sampler with
  | Temperature t => Temperature_Sample t logits
  | softmax => softmax_Sample logits
  | TopK k => TopK_Sample k logits
  | TopP p => TopP_Sample p logits
  | MinP p => MinP_Sample p logits
  | weighed => weighed_Sample logits
  | greedy => greedy_Sample logits
  end.

(** The driver.  [logits] is rebound to what each stage returns. *)
Fixpoint Sample (logits : list float) (samplers : list Sampler) : result (list float) :=
  match samplers with
  | [] => Ok logits
  | sampler :: samplers' =>
      if is_Temperature0 sampler then
        match value (Sampler_Sample Greedy logits) with
        | Ok logits' => Ok logits'
        | Err msg => Err msg
        | Panic => Panic
        end
      else
        match value (Sampler_Sample sampler logits) with
        | Ok logits' => Sample logits' samplers'
        | Err msg => Err msg
        | Panic => Panic
        end
  end.

End sample.

(** *** The order of [float] through an integer key

    [key] sends a float to a triple of integers whose lexicographic order
    is the order [cmp.Compare] sorts by: NaN first, then the numbers (with
    [-0 = +0]). *)

Definition key (f : spec_float) : Z * Z * Z :=
  match f with
  | S754_nan => (-3, 0, 0)
  | S754_infinity true => (-2, 0, 0)
  | S754_finite true m e => (-1, - e, - Z.pos m)
  | S754_zero _ => (0, 0, 0)
  | S754_finite false m e => (1, e, Z.pos m)
  | S754_infinity false => (2, 0, 0)
  end%Z.

Definition key_lt (a b : Z * Z * Z) : Prop :=
  (a.1.1 < b.1.1 \/ (a.1.1 = b.1.1 /\ (a.1.2 < b.1.2 \/ (a.1.2 = b.1.2 /\ a.2 < b.2))))%Z.

Definition fkey (x : float) : Z * Z * Z := key (Prim2SF x).

(** ** Vocabulary of the specification *)

(** The positions of a vector that do not hold the excluded marker. *)
Definition survivors (logits : list float) : list nat :=
  filter (fun i => math.IsNaN (at_ logits i) = false) (seq 0 (length logits)).

(** [ind] is the index of the maximum score of [s], the first one among
    equal maxima.  NaN entries are no scores: they are skipped, and a vector
    of NaN only has index 0. *)
Definition argmax_first (s : list float) (ind : nat) : Prop :=
  ind < length s /\
  (forall j v, s !! j = Some v -> math.IsNaN v = false ->
     exists m, s !! ind = Some m /\ math.IsNaN m = false /\
               (v <=? m)%float = true /\ (j < ind -> (v <? m)%float = true)) /\
  ((forall v, v ∈ s -> math.IsNaN v = true) -> ind = 0).

(** No strategy of [samplers] is [Temperature(0)]. *)
Definition no_Temperature0 (samplers : list Sampler) : Prop :=
  Forall (fun sampler => is_Temperature0 sampler = false) samplers.

(** Invariant of the loop of [floats.MaxIdx] once a first score was seen:
    [max] is the entry at [ind], no entry of the part read so far is
    greater, and the entries before [ind] are smaller. *)
Definition best_so_far (pre : list float) (max : float) (ind : nat) : Prop :=
  pre !! ind = Some max /\ math.IsNaN max = false /\
  forall j v, pre !! j = Some v -> math.IsNaN v = false ->
    ~ key_lt (fkey max) (fkey v) /\ (j < ind -> key_lt (fkey v) (fkey max)).

(** [x] lies in the closed range [[lo, hi]], resp. the open range [(lo, hi)];
    a NaN lies in no range. *)
Definition in_closed (lo hi x : float) : Prop :=
  (lo <=? x)%float = true /\ (x <=? hi)%float = true.

Definition in_open (lo hi x : float) : Prop :=
  (lo <? x)%float = true /\ (x <? hi)%float = true.

(** Some position holds the excluded marker. *)
Definition has_NaN (logits : list float) : Prop :=
  exists x, x ∈ logits /\ math.IsNaN x = true.

(** [cumSum] when the loop of [TopP.Sample] has read the positions [l]. *)
Definition cum (probs : list float) (l : list nat) (cumSum : float) : float :=
  fold_left (fun c idx => (c + at_ probs idx)%float) l cumSum.

(** The first [m] positions of [ranked] are the smallest prefix whose
    cumulative probability exceeds [p]. *)
Definition nucleus (p : float) (probs : list float) (ranked : list nat) (m : nat) : Prop :=
  (p <? cum probs (take m ranked) 0)%float = true /\
  forall m', m' < m -> (p <? cum probs (take m' ranked) 0)%float = false.

(** [ranked] lists the positions of [probs] by descending probability, in
    the order of [cmp.Compare]. *)
Definition descending (probs : list float) (ranked : list nat) : Prop :=
  ranked ≡ₚ seq 0 (length probs) /\
  StronglySorted (fun i j => (0 <= cmp.Compare (at_ probs i) (at_ probs j))%Z) ranked.

(** [m] is a maximum of [probs]: one of its entries, and no number of
    [probs] exceeds it. *)
Definition max_of (probs : list float) (m : float) : Prop :=
  m ∈ probs /\
  forall x, x ∈ probs -> math.IsNaN x = false ->
    math.IsNaN m = false /\ (x <=? m)%float = true.






(** Specification side.  The softmax of [logits] as a formula: position [i]
    holds the exponential of score [i] scaled by the reciprocal of the sum
    of the exponentials of all scores. *)
Definition spec_softmax (exp : float -> float) (Sum : list float -> float)
    (logits : list float) : list float :=
  map (fun x => (exp x * (1 / Sum (map exp logits)))%float) logits.

(** Specification side.  The strategies [stages] run one after the other,
    each on the vector the one before returned, with no special case for a
    temperature of 0; the first failure ends the run. *)
Fixpoint thread (exp : float -> float) (Sum : list float -> float)
    (sortFunc : forall A, (A -> A -> Z) -> list A -> list A) (Take : list float -> sampleuv.taken)
    (logits : list float) (stages : list Sampler) : result (list float) :=
  match stages with
  | [] => Ok logits
  | stage :: stages' =>
      match value (Sampler_Sample exp Sum sortFunc Take stage logits) with
      | Ok v => thread exp Sum sortFunc Take v stages'
      | Err msg => Err msg
      | Panic => Panic
      end
  end.

(** The strategies that hand on a vector of scores: all but the two
    selections. *)
Definition reshaping (sampler : Sampler) : bool :=
  match sampler with
  | weighed | greedy => false
  | _ => true
  end.

(** The strategies that filter: they write nothing but the excluded marker. *)
Definition excluding (sampler : Sampler) : bool :=
  match sampler with
  | TopK _ | TopP _ | MinP _ => true
  | _ => false
  end.

(** [r] has the length of [logits] and holds NaN wherever [logits] does. *)
Definition exclusions_kept (logits r : list float) : Prop :=
  length r = length logits /\
  forall i, logits !! i = Some nan -> r !! i = Some nan.

(** * Proofs *)

(** ** IEEE 754 facts about [float] *)

Section float_facts.

Implicit Types x y z : float.

Lemma IsNaN_is_nan x : math.IsNaN x = is_nan x.
Proof. reflexivity. Qed.

Lemma Prim2SF_nan x : math.IsNaN x = true -> Prim2SF x = S754_nan.
Proof. unfold math.IsNaN, Prim2SF, is_nan. intros ->. reflexivity. Qed.

Lemma IsNaN_true x : math.IsNaN x = true <-> x = nan.
Proof.
  split; [| intros ->; reflexivity].
  intros H. apply Prim2SF_inj. rewrite (Prim2SF_nan _ H). reflexivity.
Qed.

Lemma Prim2SF_not_nan x : math.IsNaN x = false -> Prim2SF x <> S754_nan.
Proof.
  unfold math.IsNaN. rewrite FloatAxioms.eqb_spec. unfold SFeqb.
  destruct (Prim2SF x); simpl; congruence.
Qed.

Lemma IsNaN_false x : math.IsNaN x = false <-> x <> nan.
Proof.
  pose proof (IsNaN_true x) as [H1 H2].
  destruct (math.IsNaN x); split; try congruence.
  - intros H. destruct H. by apply H1.
  - intros _ H. specialize (H2 H). congruence.
Qed.

Lemma add_nan_l x : (nan + x)%float = nan.
Proof. apply Prim2SF_inj. rewrite FloatAxioms.add_spec. reflexivity. Qed.

Lemma add_nan_r x : (x + nan)%float = nan.
Proof.
  apply Prim2SF_inj. rewrite FloatAxioms.add_spec.
  change (Prim2SF nan) with S754_nan. destruct (Prim2SF x) as [| | |[] ? ?]; reflexivity.
Qed.

Lemma mul_nan_l x : (nan * x)%float = nan.
Proof. apply Prim2SF_inj. rewrite FloatAxioms.mul_spec. reflexivity. Qed.

Lemma mul_nan_r x : (x * nan)%float = nan.
Proof.
  apply Prim2SF_inj. rewrite FloatAxioms.mul_spec.
  change (Prim2SF nan) with S754_nan. destruct (Prim2SF x); reflexivity.
Qed.

Lemma div_nan_r x : (x / nan)%float = nan.
Proof.
  apply Prim2SF_inj. rewrite FloatAxioms.div_spec.
  change (Prim2SF nan) with S754_nan. destruct (Prim2SF x); reflexivity.
Qed.

Lemma ltb_nan_l x : (nan <? x)%float = false.
Proof. rewrite FloatAxioms.ltb_spec. reflexivity. Qed.

Lemma ltb_nan_r x : (x <? nan)%float = false.
Proof.
  rewrite FloatAxioms.ltb_spec. change (Prim2SF nan) with S754_nan.
  unfold SFltb. destruct (Prim2SF x); reflexivity.
Qed.

Lemma leb_nan_l x : (nan <=? x)%float = false.
Proof. rewrite FloatAxioms.leb_spec. reflexivity. Qed.

Lemma leb_nan_r x : (x <=? nan)%float = false.
Proof.
  rewrite FloatAxioms.leb_spec. change (Prim2SF nan) with S754_nan.
  unfold SFleb. destruct (Prim2SF x); reflexivity.
Qed.

Lemma key_lt_asym a b : key_lt a b -> ~ key_lt b a.
Proof. unfold key_lt. lia. Qed.

Lemma key_lt_negtrans a b c : key_lt a c -> key_lt a b \/ key_lt b c.
Proof. unfold key_lt. lia. Qed.

Lemma key_lt_trans a b c : key_lt a b -> key_lt b c -> key_lt a c.
Proof. unfold key_lt. lia. Qed.

Lemma key_lt_irrefl a : ~ key_lt a a.
Proof. unfold key_lt. lia. Qed.

Lemma key_lt_total a b : key_lt a b \/ a = b \/ key_lt b a.
Proof.
  destruct a as [[a1 a2] a3], b as [[b1 b2] b3]. unfold key_lt. simpl.
  destruct (Z.lt_total a1 b1) as [?|[->|?]]; [lia| |lia].
  destruct (Z.lt_total a2 b2) as [?|[->|?]]; [lia| |lia].
  destruct (Z.lt_total a3 b3) as [?|[->|?]]; [lia| |lia].
  right; left; reflexivity.
Qed.

Lemma SFcompare_key (f g : spec_float) :
  f <> S754_nan -> g <> S754_nan ->
  exists c, SFcompare f g = Some c /\
    match c with
    | Lt => key_lt (key f) (key g)
    | Eq => key f = key g
    | Gt => key_lt (key g) (key f)
    end.
Proof.
  intros Hf Hg. unfold key_lt.
  destruct f as [sf|sf| |sf mf ef], g as [sg|sg| |sg mg eg]; try congruence;
    try destruct sf; try destruct sg; simpl; try (eexists; split; [reflexivity|simpl; lia]);
    try (eexists; split; [reflexivity|reflexivity]).
  - destruct (Z.compare_spec ef eg) as [->|?|?].
    + change (Pos.compare_cont Eq mf mg) with (Pos.compare mf mg).
      destruct (Pos.compare_spec mf mg) as [->|?|?];
        (eexists; split; [reflexivity|simpl; first [reflexivity | lia]]).
    + eexists; split; [reflexivity|simpl; lia].
    + eexists; split; [reflexivity|simpl; lia].
  - destruct (Z.compare_spec ef eg) as [->|?|?].
    + change (Pos.compare_cont Eq mf mg) with (Pos.compare mf mg).
      destruct (Pos.compare_spec mf mg) as [->|?|?];
        (eexists; split; [reflexivity|simpl; first [reflexivity | lia]]).
    + eexists; split; [reflexivity|simpl; lia].
    + eexists; split; [reflexivity|simpl; lia].
Qed.

Lemma fkey_nan x : math.IsNaN x = true -> fkey x = (-3, 0, 0)%Z.
Proof. intros H. unfold fkey. rewrite (Prim2SF_nan _ H). reflexivity. Qed.

Lemma fkey_not_nan x : math.IsNaN x = false -> (-3 < (fkey x).1.1)%Z.
Proof.
  intros H%Prim2SF_not_nan. unfold fkey.
  destruct (Prim2SF x) as [[]|[]| |[] ? ?]; simpl; try lia; congruence.
Qed.

Lemma ltb_key x y :
  (x <? y)%float = true <->
  math.IsNaN x = false /\ math.IsNaN y = false /\ key_lt (fkey x) (fkey y).
Proof.
  destruct (math.IsNaN x) eqn:Hx.
  { apply IsNaN_true in Hx as ->. rewrite ltb_nan_l. split; [congruence | intros [? _]; congruence]. }
  destruct (math.IsNaN y) eqn:Hy.
  { apply IsNaN_true in Hy as ->. rewrite ltb_nan_r. split; [congruence | intros (_ & ? & _); congruence]. }
  rewrite FloatAxioms.ltb_spec. unfold SFltb, fkey.
  destruct (SFcompare_key (Prim2SF x) (Prim2SF y)) as (c & -> & Hc);
    [by apply Prim2SF_not_nan | by apply Prim2SF_not_nan |].
  destruct c; split; try congruence; try tauto.
  - intros (_ & _ & H). rewrite Hc in H. by apply key_lt_irrefl in H.
  - intros (_ & _ & H). by apply key_lt_asym in H.
Qed.

Lemma leb_key x y :
  (x <=? y)%float = true <->
  math.IsNaN x = false /\ math.IsNaN y = false /\ ~ key_lt (fkey y) (fkey x).
Proof.
  destruct (math.IsNaN x) eqn:Hx.
  { apply IsNaN_true in Hx as ->. rewrite leb_nan_l. split; [congruence | intros [? _]; congruence]. }
  destruct (math.IsNaN y) eqn:Hy.
  { apply IsNaN_true in Hy as ->. rewrite leb_nan_r. split; [congruence | intros (_ & ? & _); congruence]. }
  rewrite FloatAxioms.leb_spec. unfold SFleb, fkey.
  destruct (SFcompare_key (Prim2SF x) (Prim2SF y)) as (c & -> & Hc);
    [by apply Prim2SF_not_nan | by apply Prim2SF_not_nan |].
  destruct c; split; try congruence; try tauto.
  - intros _. repeat split; try done. rewrite Hc. apply key_lt_irrefl.
  - intros _. repeat split; try done. by apply key_lt_asym.
Qed.

Lemma eqb_key x y :
  (x =? y)%float = true ->
  math.IsNaN x = false /\ math.IsNaN y = false /\ fkey x = fkey y.
Proof.
  destruct (math.IsNaN x) eqn:Hx.
  { apply IsNaN_true in Hx as ->. rewrite FloatAxioms.eqb_spec. done. }
  destruct (math.IsNaN y) eqn:Hy.
  { apply IsNaN_true in Hy as ->. rewrite FloatAxioms.eqb_spec.
    change (Prim2SF nan) with S754_nan. unfold SFeqb. by destruct (Prim2SF x). }
  rewrite FloatAxioms.eqb_spec. unfold SFeqb, fkey.
  destruct (SFcompare_key (Prim2SF x) (Prim2SF y)) as (c & -> & Hc);
    [by apply Prim2SF_not_nan | by apply Prim2SF_not_nan |].
  by destruct c.
Qed.

(** [cmp.Compare] is the three-way comparison of the keys. *)
Lemma Compare_key x y : (cmp.Compare x y < 0)%Z <-> key_lt (fkey x) (fkey y).
Proof.
  unfold cmp.Compare.
  destruct (math.IsNaN x) eqn:Hx, (math.IsNaN y) eqn:Hy.
  - rewrite !fkey_nan by done. unfold key_lt; simpl; lia.
  - rewrite (fkey_nan x) by done. pose proof (fkey_not_nan _ Hy).
    unfold key_lt; simpl; lia.
  - rewrite (fkey_nan y) by done. pose proof (fkey_not_nan _ Hx).
    unfold key_lt; simpl; lia.
  - destruct (x <? y)%float eqn:Hlt.
    + apply ltb_key in Hlt as (_ & _ & ?). split; [done | lia].
    + assert (~ key_lt (fkey x) (fkey y)) as Hn.
      { intros Hk. assert ((x <? y)%float = true) by (by apply ltb_key). congruence. }
      destruct (y <? x)%float; split; try lia; done.
Qed.

End float_facts.

(** ** [slices]: the insertion sort meets the contract of [SortFunc] *)

Section insertion_sort.
Context {A : Type} (cmp : A -> A -> Z).

Lemma insert_left_perm x acc : slices.insert_left cmp x acc ≡ₚ x :: acc.
Proof.
  induction acc as [|y acc IH]; simpl; [done|].
  destruct (cmp x y <? 0)%Z; [|done].
  rewrite IH. apply Permutation_swap.
Qed.

Lemma insertion_loop_perm data acc :
  fold_left (fun acc x => slices.insert_left cmp x acc) data acc ≡ₚ data ++ acc.
Proof.
  revert acc. induction data as [|x data IH]; intros acc; simpl; [done|].
  rewrite IH, insert_left_perm. by rewrite Permutation_middle.
Qed.

Lemma insertionSort_perm data : slices.insertionSortCmpFunc cmp data ≡ₚ data.
Proof.
  unfold slices.insertionSortCmpFunc. rewrite reverse_Permutation.
  rewrite insertion_loop_perm. by rewrite app_nil_r.
Qed.

(** The prefix kept by the loop, last element first, is sorted downwards. *)
Lemma insert_left_sorted x acc :
  slices.strict_weak cmp ->
  StronglySorted (fun a b => ~ slices.less cmp a b) acc ->
  StronglySorted (fun a b => ~ slices.less cmp a b) (slices.insert_left cmp x acc).
Proof.
  intros [Hasym Hneg]. induction acc as [|y acc IH]; intros Hs; simpl.
  { repeat constructor. }
  apply StronglySorted_inv in Hs as [Hacc Hy].
  destruct (cmp x y <? 0)%Z eqn:Hxy.
  - apply Z.ltb_lt in Hxy. constructor; [by apply IH|].
    apply Forall_forall. intros z Hz.
    rewrite insert_left_perm in Hz. apply elem_of_cons in Hz as [->|Hz].
    + by apply Hasym.
    + rewrite Forall_forall in Hy. by apply Hy.
  - apply Z.ltb_ge in Hxy. constructor; [by constructor|].
    constructor; [unfold slices.less; lia|].
    apply Forall_forall. intros z Hz Hxz.
    rewrite Forall_forall in Hy. specialize (Hy z Hz).
    destruct (Hneg x y z Hxz) as [H|H]; [unfold slices.less in H; lia | done].
Qed.

Lemma insertion_loop_sorted data acc :
  slices.strict_weak cmp ->
  StronglySorted (fun a b => ~ slices.less cmp a b) acc ->
  StronglySorted (fun a b => ~ slices.less cmp a b)
    (fold_left (fun acc x => slices.insert_left cmp x acc) data acc).
Proof.
  intros Hsw. revert acc. induction data as [|x data IH]; intros acc Hs; simpl; [done|].
  apply IH. by apply insert_left_sorted.
Qed.

Lemma StronglySorted_rev (R : A -> A -> Prop) l :
  StronglySorted R l -> StronglySorted (fun a b => R b a) (reverse l).
Proof.
  induction 1 as [|x l Hl IH Hx]; [constructor|]. rewrite reverse_cons.
  apply StronglySorted_app_2; [| done | repeat constructor].
  intros a b Ha Hb. rewrite elem_of_reverse in Ha.
  apply list_elem_of_singleton in Hb as ->.
  rewrite Forall_forall in Hx. apply Hx, Ha.
Qed.

End insertion_sort.

Lemma insertionSort_sorts : slices.sorts (@slices.insertionSortCmpFunc).
Proof.
  intros A cmp x. split; [apply insertionSort_perm|].
  intros Hsw. unfold slices.insertionSortCmpFunc.
  apply (StronglySorted_rev (fun a b => ~ slices.less cmp a b)).
  apply insertion_loop_sorted; [done | constructor].
Qed.

(** ** [floats.MaxIdx] *)

Lemma best_so_far_skip pre max ind v :
  math.IsNaN v = true -> best_so_far pre max ind -> best_so_far (pre ++ [v]) max ind.
Proof.
  intros Hv (Hind & Hmax & Hall). split; [|split; [done|]].
  - rewrite lookup_app_l; [done | by eapply lookup_lt_Some].
  - intros j w Hj Hw. apply lookup_app_Some in Hj as [Hj|[_ Hj]]; [by apply Hall|].
    apply list_lookup_singleton_Some in Hj as [_ <-]. congruence.
Qed.

Lemma best_so_far_keep pre max ind v :
  math.IsNaN v = false -> (max <? v)%float = false ->
  best_so_far pre max ind -> best_so_far (pre ++ [v]) max ind.
Proof.
  intros Hv Hlt (Hind & Hmax & Hall).
  pose proof (lookup_lt_Some _ _ _ Hind) as Hlen.
  split; [|split; [done|]].
  - by rewrite lookup_app_l.
  - intros j w Hj Hw. apply lookup_app_Some in Hj as [Hj|[Hge Hj]]; [by apply Hall|].
    apply list_lookup_singleton_Some in Hj as [_ <-]. split; [|lia].
    intros Hk. assert ((max <? v)%float = true) by (by apply ltb_key). congruence.
Qed.

Lemma best_so_far_replace pre max ind v :
  math.IsNaN v = false -> (max <? v)%float = true ->
  best_so_far pre max ind -> best_so_far (pre ++ [v]) v (length pre).
Proof.
  intros Hv Hlt (Hind & Hmax & Hall).
  apply ltb_key in Hlt as (_ & _ & Hlt).
  split; [|split; [done|]].
  - rewrite lookup_app_r by lia. by rewrite Nat.sub_diag.
  - intros j w Hj Hw. apply lookup_app_Some in Hj as [Hj|[Hge Hj]].
    + destruct (Hall j w Hj Hw) as [Hn _].
      assert (key_lt (fkey w) (fkey v)) as Hwv.
      { destruct (key_lt_negtrans _ (fkey w) _ Hlt); [done | done]. }
      split; [by apply key_lt_asym | done].
    + apply list_lookup_singleton_Some in Hj as [Hj <-].
      split; [apply key_lt_irrefl | lia].
Qed.

Lemma best_so_far_first pre v :
  Forall (fun w => math.IsNaN w = true) pre -> math.IsNaN v = false ->
  best_so_far (pre ++ [v]) v (length pre).
Proof.
  intros Hpre Hv. split; [|split; [done|]].
  - rewrite lookup_app_r by lia. by rewrite Nat.sub_diag.
  - intros j w Hj Hw. apply lookup_app_Some in Hj as [Hj|[Hge Hj]].
    + rewrite Forall_forall in Hpre.
      rewrite (Hpre w) in Hw; [done | by eapply list_elem_of_lookup_2].
    + apply list_lookup_singleton_Some in Hj as [Hj <-].
      split; [apply key_lt_irrefl | lia].
Qed.

Lemma MaxIdx_loop_best s : forall pre max ind,
  best_so_far pre max ind ->
  exists max', best_so_far (pre ++ s) max' (floats.MaxIdx_loop s (length pre) max ind).
Proof.
  induction s as [|v s IH]; intros pre max ind Hb; simpl.
  { exists max. by rewrite app_nil_r. }
  replace (pre ++ v :: s) with ((pre ++ [v]) ++ s) by (by rewrite <- app_assoc).
  replace (S (length pre)) with (length (pre ++ [v])) by (rewrite length_app; simpl; lia).
  destruct (math.IsNaN v) eqn:Hv.
  { apply IH. by apply best_so_far_skip. }
  pose proof Hb as (_ & Hmax & _). rewrite Hmax, orb_false_r.
  destruct (max <? v)%float eqn:Hlt.
  - apply IH. by eapply best_so_far_replace.
  - apply IH. by apply best_so_far_keep.
Qed.

Lemma MaxIdx_loop_start s : forall pre,
  Forall (fun w => math.IsNaN w = true) pre ->
  (Forall (fun w => math.IsNaN w = true) (pre ++ s) /\
   floats.MaxIdx_loop s (length pre) math.NaN 0 = 0) \/
  exists max', best_so_far (pre ++ s) max' (floats.MaxIdx_loop s (length pre) math.NaN 0).
Proof.
  induction s as [|v s IH]; intros pre Hpre; simpl.
  { left. by rewrite app_nil_r. }
  replace (pre ++ v :: s) with ((pre ++ [v]) ++ s) by (by rewrite <- app_assoc).
  replace (S (length pre)) with (length (pre ++ [v])) by (rewrite length_app; simpl; lia).
  destruct (math.IsNaN v) eqn:Hv.
  - apply IH. apply Forall_app. split; [done | by constructor].
  - rewrite orb_true_r. right. apply MaxIdx_loop_best. by apply best_so_far_first.
Qed.

Lemma best_so_far_argmax s max ind : best_so_far s max ind -> argmax_first s ind.
Proof.
  intros (Hind & Hmax & Hall). split; [by eapply lookup_lt_Some | split].
  - intros j v Hj Hv. exists max. destruct (Hall j v Hj Hv) as [Hn Hlt].
    repeat split; [done | done | by apply leb_key |].
    intros Hji. apply ltb_key. auto.
  - intros Hnan. rewrite (Hnan max) in Hmax; [done | by eapply list_elem_of_lookup_2].
Qed.

Lemma MaxIdx_argmax s :
  s <> [] -> exists ind, floats.MaxIdx s = Some ind /\ argmax_first s ind.
Proof.
  intros Hs. unfold floats.MaxIdx. destruct s as [|v s]; [done|].
  eexists. split; [reflexivity|].
  destruct (MaxIdx_loop_start (v :: s) [] (Forall_nil_2 _)) as [[Hnan Heq]|[max Hb]];
    change (length (@nil float)) with 0 in *; rewrite app_nil_l in *.
  - rewrite Heq. split; [simpl; lia | split; [|done]].
    intros j w Hj Hw. rewrite Forall_forall in Hnan.
    rewrite (Hnan w) in Hw; [done | by eapply list_elem_of_lookup_2].
  - by eapply best_so_far_argmax.
Qed.

(** The maximum is unique: [argmax_first] determines the index. *)
Lemma argmax_first_unique s i j : argmax_first s i -> argmax_first s j -> i = j.
Proof.
  intros (Hi & Hbi & Hni) (Hj & Hbj & Hnj).
  destruct (lookup_lt_is_Some_2 s i Hi) as [vi Hvi].
  destruct (lookup_lt_is_Some_2 s j Hj) as [vj Hvj].
  destruct (math.IsNaN vi) eqn:Hnani.
  - destruct (decide (Forall (fun w => math.IsNaN w = true) s)) as [Hall|Hex].
    + rewrite Forall_forall in Hall. rewrite Hni, Hnj; done.
    + apply (not_Forall_Exists _) in Hex.
      apply Exists_exists in Hex as (w & Hw & Hwn). simpl in Hwn.
      apply list_elem_of_lookup_1 in Hw as [k Hk].
      destruct (Hbi k w Hk) as (m & Hm & Hmn & _); [by destruct (math.IsNaN w)|].
      congruence.
  - destruct (Hbj i vi Hvi Hnani) as (mj & Hmj & Hmjn & Hle1 & Hlt1).
    assert (mj = vj) as -> by congruence.
    destruct (Hbi j vj Hvj Hmjn) as (mi & Hmi & _ & Hle2 & Hlt2).
    assert (mi = vi) as -> by congruence.
    destruct (Nat.lt_trichotomy i j) as [Hlt|[->|Hlt]]; [|done|].
    + specialize (Hlt1 Hlt). apply ltb_key in Hlt1 as (_ & _ & H1).
      apply leb_key in Hle2 as (_ & _ & H2). done.
    + specialize (Hlt2 Hlt). apply ltb_key in Hlt2 as (_ & _ & H1).
      apply leb_key in Hle1 as (_ & _ & H2). done.
Qed.

(** ** Ranges of the configuration values *)

Lemma not_in_closed lo hi x :
  math.IsNaN lo = false -> math.IsNaN hi = false -> math.IsNaN x = false ->
  ((x <? lo)%float || (hi <? x)%float = true <-> ~ in_closed lo hi x).
Proof.
  intros Hlo Hhi Hx. unfold in_closed. rewrite orb_true_iff, !ltb_key, !leb_key.
  split.
  - intros [(_ & _ & H)|(_ & _ & H)] [(_ & _ & H1) (_ & _ & H2)]; done.
  - intros Hn.
    destruct (key_lt_total (fkey x) (fkey lo)) as [H|H]; [by left|].
    destruct (key_lt_total (fkey hi) (fkey x)) as [H'|H']; [by right|].
    exfalso. apply Hn. repeat split; try done.
    + destruct H as [->|H]; [apply key_lt_irrefl | by apply key_lt_asym].
    + destruct H' as [<-|H']; [apply key_lt_irrefl | by apply key_lt_asym].
Qed.

Lemma not_in_open lo hi x :
  math.IsNaN lo = false -> math.IsNaN hi = false -> math.IsNaN x = false ->
  ((x <=? lo)%float || (hi <=? x)%float = true <-> ~ in_open lo hi x).
Proof.
  intros Hlo Hhi Hx. unfold in_open. rewrite orb_true_iff, !ltb_key, !leb_key.
  split.
  - intros [(_ & _ & H)|(_ & _ & H)] [(_ & _ & H1) (_ & _ & H2)]; done.
  - intros Hn.
    destruct (key_lt_total (fkey lo) (fkey x)) as [H|H].
    + destruct (key_lt_total (fkey x) (fkey hi)) as [H'|H'].
      * exfalso. apply Hn. done.
      * right. repeat split; try done.
        destruct H' as [->|H']; [apply key_lt_irrefl | by apply key_lt_asym].
    + left. repeat split; try done.
      destruct H as [->|H]; [apply key_lt_irrefl | by apply key_lt_asym].
Qed.

Lemma in_open_check p :
  in_open 0 1 p -> (p <=? 0)%float || (1 <=? p)%float = false.
Proof.
  intros Hp. destruct ((p <=? 0)%float || (1 <=? p)%float) eqn:E; [|done].
  assert (math.IsNaN p = false) as Hn by (destruct Hp as [Hp _]; by apply ltb_key in Hp as (_ & ? & _)).
  apply not_in_open in E; done.
Qed.

(** ** NaN in sums *)

Lemma Sum_loop_nan s : fold_left (fun sum v => (sum + v)%float) s nan = nan.
Proof. induction s as [|v s IH]; simpl; [done|]. by rewrite add_nan_l. Qed.

Lemma Sum_loop_has_nan s : forall sum,
  nan ∈ s -> fold_left (fun sum v => (sum + v)%float) s sum = nan.
Proof.
  induction s as [|v s IH]; intros sum Hin; [by apply elem_of_nil in Hin|].
  simpl. apply elem_of_cons in Hin as [<-|Hin].
  - rewrite add_nan_r. apply Sum_loop_nan.
  - by apply IH.
Qed.

(** The portable loop of [floats.Sum] is a sum in that sense. *)
Lemma floats_Sum_NaN s : nan ∈ s -> floats.Sum s = nan.
Proof. apply Sum_loop_has_nan. Qed.

Lemma has_NaN_elem logits : has_NaN logits <-> nan ∈ logits.
Proof.
  split.
  - intros (x & Hx & Hn). by apply IsNaN_true in Hn as ->.
  - intros H. by exists nan.
Qed.

Lemma at_replicate_nan n i : at_ (replicate n nan) i = nan.
Proof.
  unfold at_. destruct (replicate n nan !! i) as [x|] eqn:E; [|done].
  by apply lookup_replicate in E as [-> _].
Qed.

Lemma TopP_cut_nan p n indices : forall cumSum,
  TopP_cut p (replicate n nan) indices cumSum = [].
Proof.
  induction indices as [|idx rest IH]; intros cumSum; simpl; [done|].
  rewrite at_replicate_nan, add_nan_r, ltb_nan_r. apply IH.
Qed.

(** ** The loop of [weighed.Sample] *)

Lemma compact_spec logits : forall i,
  (compact i logits).1 = [] <-> Forall (fun x => math.IsNaN x = true) logits.
Proof.
  induction logits as [|x logits IH]; intros i; simpl; [done|].
  specialize (IH (S i)). destruct (compact (S i) logits) as [c ix].
  destruct (math.IsNaN x) eqn:Hx; simpl in *.
  - rewrite IH. split; [by constructor | by inversion 1].
  - split; [done | inversion 1; congruence].
Qed.

Lemma compact_indices logits : forall i v idx,
  (compact i logits).2 !! v = Some idx ->
  i <= idx /\ exists x, logits !! (idx - i) = Some x /\ math.IsNaN x = false.
Proof.
  induction logits as [|x logits IH]; intros i v idx; simpl; [done|].
  specialize (IH (S i)). destruct (compact (S i) logits) as [c ix].
  assert (forall v, ix !! v = Some idx ->
            i <= idx /\ exists y, (x :: logits) !! (idx - i) = Some y /\ math.IsNaN y = false) as Htail.
  { intros v' Hv'. destruct (IH v' idx Hv') as (Hle & y & Hy & Hn).
    split; [lia|]. exists y. split; [|done].
    replace (idx - i) with (S (idx - S i)) by lia. done. }
  destruct (math.IsNaN x) eqn:Hx; simpl.
  - apply Htail.
  - destruct v as [|v]; simpl; [|apply Htail].
    intros [= <-]. split; [lia|]. exists x. by rewrite Nat.sub_diag.
Qed.

(** ** Writing the excluded marker *)

Lemma length_exclude drop : forall logits, length (exclude drop logits) = length logits.
Proof.
  induction drop as [|d drop IH]; intros logits; simpl; [done|].
  unfold exclude in IH. by rewrite IH, length_insert.
Qed.

Lemma lookup_exclude_stays drop : forall logits i,
  logits !! i = Some nan -> exclude drop logits !! i = Some nan.
Proof.
  induction drop as [|d drop IH]; intros logits i Hi; [done|].
  change (exclude (d :: drop) logits) with (exclude drop (<[d := math.NaN]> logits)).
  apply IH. destruct (decide (d = i)) as [->|Hne].
  - apply list_lookup_insert_eq. by eapply lookup_lt_Some.
  - by rewrite list_lookup_insert_ne.
Qed.

Lemma lookup_exclude_in drop : forall logits i,
  i ∈ drop -> i < length logits -> exclude drop logits !! i = Some nan.
Proof.
  induction drop as [|d drop IH]; intros logits i Hin Hlt; [by apply elem_of_nil in Hin|].
  change (exclude (d :: drop) logits) with (exclude drop (<[d := math.NaN]> logits)).
  apply elem_of_cons in Hin as [->|Hin].
  - apply lookup_exclude_stays. by apply list_lookup_insert_eq.
  - apply IH; [done | by rewrite length_insert].
Qed.

Lemma lookup_exclude_notin drop : forall logits i,
  i ∉ drop -> exclude drop logits !! i = logits !! i.
Proof.
  induction drop as [|d drop IH]; intros logits i Hi; [done|].
  change (exclude (d :: drop) logits) with (exclude drop (<[d := math.NaN]> logits)).
  apply not_elem_of_cons in Hi as [Hne Hi].
  rewrite IH by done. by apply list_lookup_insert_ne.
Qed.

Lemma at_lookup s i x : s !! i = Some x -> at_ s i = x.
Proof. unfold at_. by intros ->. Qed.

Lemma elem_of_survivors logits i :
  i ∈ survivors logits <-> exists x, logits !! i = Some x /\ math.IsNaN x = false.
Proof.
  unfold survivors. rewrite list_elem_of_filter, elem_of_seq. split.
  - intros [Hn [_ Hlt]]. simpl in Hlt.
    destruct (lookup_lt_is_Some_2 logits i Hlt) as [x Hx].
    exists x. split; [done|]. by rewrite (at_lookup _ _ _ Hx) in Hn.
  - intros (x & Hx & Hn). rewrite (at_lookup _ _ _ Hx).
    split; [done|]. split; [lia|]. simpl. by eapply lookup_lt_Some.
Qed.

Lemma NoDup_survivors logits : NoDup (survivors logits).
Proof. apply NoDup_filter, NoDup_seq. Qed.

(** ** Ranking positions by descending score *)

Lemma Compare_strict_weak : slices.strict_weak cmp.Compare.
Proof.
  split.
  - intros a b. unfold slices.less. rewrite !Compare_key. apply key_lt_asym.
  - intros a b c. unfold slices.less. rewrite !Compare_key. apply key_lt_negtrans.
Qed.

Lemma descending_strict_weak (score : nat -> float) :
  slices.strict_weak (fun i j => cmp.Compare (score j) (score i)).
Proof.
  split.
  - intros a b. unfold slices.less. rewrite !Compare_key. apply key_lt_asym.
  - intros a b c. unfold slices.less. rewrite !Compare_key.
    intros H. destruct (key_lt_negtrans _ (fkey (score b)) _ H); auto.
Qed.

Lemma StronglySorted_mono {A} (R R' : A -> A -> Prop) l :
  (forall a b, R a b -> R' a b) -> StronglySorted R l -> StronglySorted R' l.
Proof.
  intros HR. induction 1 as [|a l Hl IH Ha]; constructor; [done|].
  eapply Forall_impl; [exact Ha | apply HR].
Qed.

(** A NaN score sorts after every number. *)
Lemma key_NaN_least x y :
  math.IsNaN x = true -> math.IsNaN y = false -> key_lt (fkey x) (fkey y).
Proof.
  intros Hx Hy. rewrite (fkey_nan _ Hx). pose proof (fkey_not_nan _ Hy).
  unfold key_lt. simpl. lia.
Qed.

(** ** The loop of [TopP.Sample] *)

Lemma TopP_cut_spec p probs l : forall c,
  (exists m, m < length l /\
     TopP_cut p probs l c = drop (S m) l /\
     (p <? cum probs (take (S m) l) c)%float = true /\
     forall m', 1 <= m' <= m -> (p <? cum probs (take m' l) c)%float = false) \/
  (TopP_cut p probs l c = [] /\
   forall m', 1 <= m' <= length l -> (p <? cum probs (take m' l) c)%float = false).
Proof.
  induction l as [|idx rest IH]; intros c.
  { right. split; [done|]. simpl. lia. }
  simpl. destruct (p <? c + at_ probs idx)%float eqn:Hc.
  - left. exists 0. split; [lia|]. split; [by rewrite drop_0|]. split; [done | lia].
  - destruct (IH (c + at_ probs idx)%float) as [(m & Hm & Hcut & Hgt & Hmin)|[Hcut Hmin]].
    + left. exists (S m). split; [lia|]. split; [done|]. split; [done|].
      intros [|[|m']] Hm'; [lia | done |]. simpl. apply (Hmin (S m')). lia.
    + right. split; [done|].
      intros [|[|m']] Hm'; [lia | done |]. simpl. apply (Hmin (S m')). lia.
Qed.

Lemma eqb_not_ltb x y : (x =? y)%float = true -> (x <? y)%float = false.
Proof.
  rewrite FloatAxioms.eqb_spec, FloatAxioms.ltb_spec. unfold SFeqb, SFltb.
  by destruct (SFcompare _ _) as [[]|].
Qed.

Lemma in_open_positive p : in_open 0 1 p -> (p <? 0)%float = false.
Proof.
  intros [Hp _]. destruct (p <? 0)%float eqn:E; [|done].
  apply ltb_key in Hp as (_ & _ & H1). apply ltb_key in E as (_ & _ & H2).
  by apply key_lt_asym in H1.
Qed.

(** ** Exact float64 arithmetic

    A float64 number is an integer multiple of [2^-1074].  The difference of
    two numbers is the rounding of the difference of their values, and they
    compare as their values do; so a shift that is not rounded cancels in
    the differences and keeps the order. *)

Lemma finite_cases x :
  is_finite x = true ->
  (exists s, Prim2SF x = S754_zero s) \/ (exists s m e, Prim2SF x = S754_finite s m e).
Proof.
  intros Hf. destruct (Prim2SF x) as [s|s| |s m e] eqn:E; [by left; eauto | | | by right; eauto].
  - rewrite <- (SF2Prim_Prim2SF x), E in Hf. destruct s; vm_compute in Hf; discriminate.
  - rewrite <- (SF2Prim_Prim2SF x), E in Hf. vm_compute in Hf. discriminate.
Qed.

























(** ** [floats.Max] under an exact shift *)







(** ** The stages and the driver *)

(** C8: on a non-empty vector [greedy.Sample] returns, without error, the
    one-element sequence holding the index of the maximum score, the first
    index among equal maxima; on [1.0, 5.0, 3.0] this is index 1. *)
Theorem C8_greedy_first_argmax :
  (forall logits, logits <> [] ->
     exists ind, greedy_Sample logits = {| after := logits; value := Ok [float64_of_int ind] |} /\
                 argmax_first logits ind) /\
  value (greedy_Sample [1; 5; 3]%float) = Ok [1%float].
Proof.
  split; [|reflexivity].
  intros logits Hne. destruct (MaxIdx_argmax logits Hne) as (ind & Hidx & Harg).
  exists ind. unfold greedy_Sample. by rewrite Hidx.
Qed.

Section sample_correct.

Context (exp : float -> float).
Context (Sum : list float -> float).
Context (sortFunc : forall A, (A -> A -> Z) -> list A -> list A).
Context (Take : list float -> sampleuv.taken).

(** What the proofs use of the library code: [Exp(NaN) = NaN], a sum with
    a NaN term is NaN (in whatever order the terms are added), and the
    contract of [slices.SortFunc]. *)
Hypothesis exp_NaN : exp nan = nan.
Hypothesis Sum_NaN : forall s, nan ∈ s -> Sum s = nan.
Hypothesis sortFunc_sorts : slices.sorts sortFunc.

Lemma Sample_app logits pre rest :
  no_Temperature0 pre ->
  Sample exp Sum sortFunc Take logits (pre ++ rest) =
  match Sample exp Sum sortFunc Take logits pre with
  | Ok v => Sample exp Sum sortFunc Take v rest
  | Err msg => Err msg
  | Panic => Panic
  end.
Proof.
  intros Hpre. revert logits.
  induction Hpre as [|sampler pre Hs Hpre IH]; intros logits; simpl; [done|].
  rewrite Hs. destruct (value (Sampler_Sample exp Sum sortFunc Take sampler logits)); auto.
Qed.

(** Up to the first [Temperature(0)] the driver runs the strategies one
    after the other. *)
Lemma Sample_thread logits pre :
  no_Temperature0 pre ->
  Sample exp Sum sortFunc Take logits pre = thread exp Sum sortFunc Take logits pre.
Proof.
  intros Hpre. revert logits.
  induction Hpre as [|sampler pre Hs Hpre IH]; intros logits; simpl; [done|].
  rewrite Hs. destruct (value (Sampler_Sample exp Sum sortFunc Take sampler logits)); auto.
Qed.

(** C1 (amended): when the strategy list holds a [Temperature] of value 0,
    [Sample] runs the strategies before the first such one, each on the
    vector the one before returned; if one of them fails, [Sample] returns
    that failure; otherwise it returns what [greedy.Sample] returns on the
    vector they left, whatever strategies follow.
    [Sample([2.0, 9.0, 4.0], Temperature(0), TopK(1))] returns [[1]]. *)
Theorem C1_zero_temperature_returns_greedy :
  (forall logits pre post t,
     no_Temperature0 pre ->
     (t =? 0)%float = true ->
     Sample exp Sum sortFunc Take logits (pre ++ Temperature t :: post) =
     match thread exp Sum sortFunc Take logits pre with
     | Ok v => value (greedy_Sample v)
     | Err msg => Err msg
     | Panic => Panic
     end) /\
  Sample exp Sum sortFunc Take [2; 9; 4]%float [Temperature 0; TopK 1] = Ok [1%float].
Proof.
  split; [|reflexivity].
  intros logits pre post t Hpre Ht.
  rewrite Sample_app, Sample_thread by done.
  destruct (thread exp Sum sortFunc Take logits pre) as [v| |]; [|done..].
  simpl. rewrite Ht. by destruct (value (greedy_Sample v)).
Qed.

Lemma computeSoftmax_NaN logits :
  has_NaN logits -> computeSoftmax exp Sum logits = replicate (length logits) nan.
Proof.
  intros Hnan%has_NaN_elem. unfold computeSoftmax, floats.Scale.
  rewrite Sum_NaN.
  - rewrite div_nan_r. clear Hnan. induction logits as [|x logits IH]; simpl; [done|].
    by rewrite mul_nan_r, IH.
  - rewrite <- exp_NaN. by apply list_elem_of_fmap_2.
Qed.

(** C9: when some position of the input holds NaN, [computeSoftmax], and so
    [Softmax().Sample], returns a vector of the same length whose every
    position is NaN, the positions with a finite score included. *)
Theorem C9_softmax_NaN_everywhere logits :
  has_NaN logits ->
  computeSoftmax exp Sum logits = replicate (length logits) nan /\
  softmax_Sample exp Sum logits =
    {| after := logits; value := Ok (replicate (length logits) nan) |}.
Proof.
  intros Hnan. unfold softmax_Sample. by rewrite computeSoftmax_NaN.
Qed.

Lemma TopP_Sample_NaN p logits :
  in_open 0 1 p -> has_NaN logits -> TopP_Sample exp Sum sortFunc p logits = done_in_place logits.
Proof.
  intros Hp Hnan. unfold TopP_Sample.
  rewrite (in_open_check _ Hp), computeSoftmax_NaN by done.
  by rewrite TopP_cut_nan.
Qed.

Lemma MinP_Sample_NaN p logits :
  in_open 0 1 p -> has_NaN logits -> MinP_Sample exp Sum sortFunc p logits = done_in_place logits.
Proof.
  intros Hp Hnan. unfold MinP_Sample.
  rewrite (in_open_check _ Hp), computeSoftmax_NaN by done.
  destruct (sortFunc_sorts float cmp.Compare (replicate (length logits) nan)) as [Hperm _].
  destruct (last _) as [maxProb|] eqn:Hlast.
  - assert (maxProb = nan) as ->.
    { apply last_Some_elem_of in Hlast. rewrite Hperm in Hlast.
      by apply elem_of_replicate in Hlast as [-> _]. }
    rewrite mul_nan_r. f_equal.
    clear. induction logits as [|x logits IH]; [done|].
    change (length (x :: logits)) with (S (length logits)).
    cbn [replicate zip_with]. by rewrite ltb_nan_r, IH.
  - apply last_None in Hlast. apply Permutation_length in Hperm.
    rewrite Hlast, length_replicate in Hperm.
    apply has_NaN_elem in Hnan. destruct logits; [by apply elem_of_nil in Hnan | done].
Qed.

(** C10: when some position of the input holds NaN and [p] is a valid
    threshold, [TopP(p).Sample] and [MinP(p).Sample] return the vector as it
    was: no position is newly overwritten.  So a [TopP] or [MinP] stage that
    follows a [TopK] stage whose result holds a NaN filters nothing. *)
Theorem C10_TopP_MinP_idle_after_exclusion p logits :
  in_open 0 1 p -> has_NaN logits ->
  TopP_Sample exp Sum sortFunc p logits = {| after := logits; value := Ok logits |} /\
  MinP_Sample exp Sum sortFunc p logits = {| after := logits; value := Ok logits |} /\
  (forall scores k,
     value (TopK_Sample sortFunc k scores) = Ok logits ->
     Sample exp Sum sortFunc Take scores [TopK k; TopP p] = Ok logits /\
     Sample exp Sum sortFunc Take scores [TopK k; MinP p] = Ok logits).
Proof.
  intros Hp Hnan. split; [by apply TopP_Sample_NaN|]. split; [by apply MinP_Sample_NaN|].
  intros scores k Hk. simpl. rewrite Hk.
  by rewrite TopP_Sample_NaN, MinP_Sample_NaN.
Qed.

Lemma Temperature_Sample_valid t logits :
  (t <? 0)%float || (2 <? t)%float = false ->
  is_Err (value (Temperature_Sample t logits)) = false.
Proof.
  intros Hc. unfold Temperature_Sample. rewrite Hc. by destruct (floats.Max logits).
Qed.

Lemma TopK_Sample_valid k logits :
  (0 < k)%Z -> is_Err (value (TopK_Sample sortFunc k logits)) = false.
Proof.
  intros Hk. unfold TopK_Sample.
  destruct (k <=? 0)%Z eqn:E; [apply Z.leb_le in E; lia|].
  by destruct (Z.of_nat (length logits) <=? k)%Z.
Qed.

Lemma MinP_Sample_valid p logits :
  (p <=? 0)%float || (1 <=? p)%float = false ->
  is_Err (value (MinP_Sample exp Sum sortFunc p logits)) = false.
Proof.
  intros Hc. unfold MinP_Sample. rewrite Hc. by destruct (last _).
Qed.

(** C6 (amended): for a configuration value that is a number (not NaN),
    [Temperature(t).Sample] returns its configuration error exactly when [t]
    is outside [[0, 2]], [TopK(k).Sample] exactly when [k <= 0],
    [TopP(p).Sample] and [MinP(p).Sample] exactly when [p] is outside
    [(0, 1)]; in each error case the vector is left as it was. *)
Theorem C6_invalid_configuration logits :
  (forall t, math.IsNaN t = false ->
     (~ in_closed 0 2 t ->
      Temperature_Sample t logits = fail logits "temperature must be between 0 and 2") /\
     (in_closed 0 2 t -> is_Err (value (Temperature_Sample t logits)) = false)) /\
  (forall k,
     ((k <= 0)%Z -> TopK_Sample sortFunc k logits = fail logits "k must be positive") /\
     ((0 < k)%Z -> is_Err (value (TopK_Sample sortFunc k logits)) = false)) /\
  (forall p, math.IsNaN p = false ->
     (~ in_open 0 1 p ->
      TopP_Sample exp Sum sortFunc p logits = fail logits "p must be between 0 and 1") /\
     (in_open 0 1 p -> is_Err (value (TopP_Sample exp Sum sortFunc p logits)) = false)) /\
  (forall p, math.IsNaN p = false ->
     (~ in_open 0 1 p ->
      MinP_Sample exp Sum sortFunc p logits = fail logits "p must be between 0 and 1") /\
     (in_open 0 1 p -> is_Err (value (MinP_Sample exp Sum sortFunc p logits)) = false)).
Proof.
  repeat split.
  - intros Hout. apply not_in_closed in Hout; [|done..].
    unfold Temperature_Sample. by rewrite Hout.
  - intros Hin. apply Temperature_Sample_valid.
    destruct ((t <? 0)%float || (2 <? t)%float) eqn:E; [|done].
    apply not_in_closed in E; done.
  - intros Hk. unfold TopK_Sample. by apply Z.leb_le in Hk as ->.
  - apply TopK_Sample_valid.
  - intros Hout. apply not_in_open in Hout; [|done..].
    unfold TopP_Sample. by rewrite Hout.
  - intros Hin. unfold TopP_Sample. by rewrite (in_open_check _ Hin).
  - intros Hout. apply not_in_open in Hout; [|done..].
    unfold MinP_Sample. by rewrite Hout.
  - intros Hin. by apply MinP_Sample_valid, in_open_check.
Qed.

(** C5 (amended): [weighed.Sample] returns the error "no valid tokens found"
    if and only if every position of the input holds NaN; when it returns a
    value, this is a one-element sequence holding an index of the input whose
    position does not hold NaN. *)
Theorem C5_weighed_valid_index logits :
  (value (weighed_Sample exp Sum Take logits) = Err "no valid tokens found" <->
   Forall (fun x => math.IsNaN x = true) logits) /\
  (forall r, value (weighed_Sample exp Sum Take logits) = Ok r ->
     exists idx x, r = [float64_of_int idx] /\ logits !! idx = Some x /\ math.IsNaN x = false).
Proof.
  unfold weighed_Sample.
  pose proof (compact_spec logits 0) as Hempty.
  pose proof (compact_indices logits 0) as Hidx.
  destruct (compact 0 logits) as [logitsCopy indices]. simpl in Hempty, Hidx.
  destruct logitsCopy as [|c logitsCopy]; simpl.
  - split; [|done]. split; [intros _; by apply Hempty | done].
  - split.
    + split.
      * destruct (Take _); [destruct (indices !! v)|..]; simpl; congruence.
      * intros Hall%Hempty. done.
    + intros r. destruct (Take _) as [v| |]; [|done..].
      destruct (indices !! v) as [idx|] eqn:Hv; [|done]. simpl. intros [= <-].
      destruct (Hidx v idx Hv) as (_ & x & Hx & Hn). rewrite Nat.sub_0_r in Hx.
      by exists idx, x.
Qed.

(** The ranking that [TopK] and [TopP] sort: a rearrangement of the
    positions in which no position has a smaller score than a later one. *)
Lemma ranking_spec (score : nat -> float) n :
  sortFunc nat (fun i j => cmp.Compare (score j) (score i)) (seq 0 n) ≡ₚ seq 0 n /\
  StronglySorted (fun a b => ~ key_lt (fkey (score a)) (fkey (score b)))
    (sortFunc nat (fun i j => cmp.Compare (score j) (score i)) (seq 0 n)).
Proof.
  destruct (sortFunc_sorts nat (fun i j => cmp.Compare (score j) (score i)) (seq 0 n))
    as [Hperm Hsorted].
  split; [done|]. specialize (Hsorted (descending_strict_weak score)).
  eapply StronglySorted_mono; [|exact Hsorted].
  intros a b Hb. unfold slices.less in Hb. by rewrite Compare_key in Hb.
Qed.

(** In a ranking, a NaN score among the first [k] leaves fewer than [k]
    numbers in the whole vector. *)
Lemma ranking_prefix_valid logits ranked k a :
  ranked ≡ₚ seq 0 (length logits) ->
  StronglySorted (fun a b => ~ key_lt (fkey (at_ logits a)) (fkey (at_ logits b))) ranked ->
  k <= length (survivors logits) ->
  a ∈ take k ranked -> math.IsNaN (at_ logits a) = false.
Proof.
  intros Hperm Hsorted Hk Ha.
  destruct (math.IsNaN (at_ logits a)) eqn:Hna; [|done]. exfalso.
  apply elem_of_take in Ha as (pa & Hpa & Hlt).
  assert (survivors logits ⊆+ take pa ranked) as Hsub.
  { apply NoDup_submseteq; [apply NoDup_survivors|]. intros i Hi.
    apply elem_of_survivors in Hi as (x & Hx & Hn).
    assert (i ∈ ranked) as Hir.
    { rewrite Hperm, elem_of_seq. split; [lia|]. simpl. by eapply lookup_lt_Some. }
    rewrite <- (take_drop_middle ranked pa a Hpa) in Hir, Hsorted.
    apply elem_of_app in Hir as [Hir|Hir]; [done|].
    apply StronglySorted_app_1_r, StronglySorted_inv in Hsorted as [_ Hall].
    apply elem_of_cons in Hir as [->|Hir].
    - rewrite (at_lookup _ _ _ Hx) in Hna. congruence.
    - rewrite Forall_forall in Hall. destruct (Hall i Hir).
      apply key_NaN_least; [done|]. by rewrite (at_lookup _ _ _ Hx). }
  apply submseteq_length in Hsub. rewrite length_take in Hsub. lia.
Qed.

(** What is left after the positions [drop k ranked] are overwritten, when
    the first [k] positions of the ranking hold numbers. *)
Lemma exclude_suffix_survivors logits ranked k :
  ranked ≡ₚ seq 0 (length logits) ->
  (forall a, a ∈ take k ranked -> math.IsNaN (at_ logits a) = false) ->
  forall i, i ∈ survivors (exclude (drop k ranked) logits) <-> i ∈ take k ranked.
Proof.
  intros Hperm Hvalid i.
  assert (NoDup ranked) as Hnodup by (rewrite Hperm; apply NoDup_seq).
  assert (forall j, j ∈ ranked <-> j < length logits) as Hrange.
  { intros j. rewrite Hperm, elem_of_seq. simpl. lia. }
  rewrite <- (take_drop k ranked) in Hnodup, Hrange.
  apply NoDup_app in Hnodup as (_ & Hdisj & _).
  rewrite elem_of_survivors. split.
  - intros (x & Hx & Hn).
    assert (i < length logits) as Hlt.
    { apply lookup_lt_Some in Hx. by rewrite length_exclude in Hx. }
    apply Hrange, elem_of_app in Hlt as [Hin|Hin]; [done|].
    rewrite lookup_exclude_in in Hx; [by injection Hx as <- | done |].
    apply Hrange, elem_of_app. by right.
  - intros Hi.
    assert (i < length logits) as Hlt by (apply Hrange, elem_of_app; by left).
    destruct (lookup_lt_is_Some_2 logits i Hlt) as [x Hx].
    exists x. rewrite lookup_exclude_notin by (by apply Hdisj).
    split; [done|]. rewrite <- (at_lookup _ _ _ Hx). by apply Hvalid.
Qed.

(** C2 (amended): for [k > 0] at least the vector length [TopK(k).Sample]
    returns the vector unchanged; for [0 < k < length], when at least [k]
    positions of the input do not hold NaN, exactly [k] positions of the
    result do not hold NaN, they hold their original scores, every other
    position holds NaN, and no score that was overwritten is greater than a
    score that was kept. *)
Theorem C2_TopK_keeps_k_largest logits k :
  ((0 < k)%Z -> (Z.of_nat (length logits) <= k)%Z ->
   TopK_Sample sortFunc k logits = {| after := logits; value := Ok logits |}) /\
  ((0 < k < Z.of_nat (length logits))%Z ->
   (k <= Z.of_nat (length (survivors logits)))%Z ->
   exists r,
     TopK_Sample sortFunc k logits = {| after := r; value := Ok r |} /\
     length r = length logits /\
     Z.of_nat (length (survivors r)) = k /\
     (forall i, i ∈ survivors r -> r !! i = logits !! i) /\
     (forall i, i < length logits -> i ∉ survivors r -> r !! i = Some nan) /\
     (forall i j, i ∈ survivors r -> j < length logits -> j ∉ survivors r ->
        math.IsNaN (at_ logits j) = false ->
        (at_ logits j <=? at_ logits i)%float = true)).
Proof.
  split.
  { intros Hk Hlen. unfold TopK_Sample.
    destruct (k <=? 0)%Z eqn:E; [apply Z.leb_le in E; lia|].
    by apply Z.leb_le in Hlen as ->. }
  intros [Hk Hlen] Hsurv. unfold TopK_Sample.
  destruct (k <=? 0)%Z eqn:E; [apply Z.leb_le in E; lia|]. clear E.
  destruct (Z.of_nat (length logits) <=? k)%Z eqn:E; [apply Z.leb_le in E; lia|]. clear E.
  destruct (ranking_spec (at_ logits) (length logits)) as [Hperm Hsorted].
  set (ranked := sortFunc nat _ _) in *.
  set (k' := Z.to_nat k).
  assert (forall a, a ∈ take k' ranked -> math.IsNaN (at_ logits a) = false) as Hvalid.
  { intros a. apply ranking_prefix_valid; [done | done | lia]. }
  pose proof (exclude_suffix_survivors logits ranked k' Hperm Hvalid) as Hiff.
  assert (NoDup ranked) as Hnodup by (rewrite Hperm; apply NoDup_seq).
  assert (forall j, j ∈ ranked <-> j < length logits) as Hrange.
  { intros j. rewrite Hperm, elem_of_seq. simpl. lia. }
  assert (length ranked = length logits) as Hlenr by (by rewrite Hperm, length_seq).
  rewrite <- (take_drop k' ranked) in Hnodup, Hrange, Hsorted.
  pose proof Hnodup as (Hnd & Hdisj & _)%NoDup_app.
  exists (exclude (drop k' ranked) logits).
  split; [done|]. split; [apply length_exclude|]. split; [|split; [|split]].
  - assert (survivors (exclude (drop k' ranked) logits) ≡ₚ take k' ranked) as ->.
    { apply NoDup_Permutation; [apply NoDup_survivors | done | done]. }
    rewrite length_take. lia.
  - intros i Hi%Hiff. by apply lookup_exclude_notin, Hdisj.
  - intros i Hlt Hi. apply lookup_exclude_in; [|done].
    apply Hrange, elem_of_app in Hlt as [Hin|Hin]; [|done]. by apply Hiff in Hin.
  - intros i j Hi%Hiff Hj Hnj Hvj.
    assert (j ∈ drop k' ranked) as Hjd.
    { apply Hrange, elem_of_app in Hj as [Hin|Hin]; [|done]. by apply Hiff in Hin. }
    apply leb_key. split; [done|]. split; [by apply Hvalid|].
    by apply (StronglySorted_app_1_elem_of _ _ _ _ _ Hsorted).
Qed.

Lemma length_computeSoftmax logits : length (computeSoftmax exp Sum logits) = length logits.
Proof. unfold computeSoftmax, floats.Scale. by rewrite !length_map. Qed.

Lemma ranking_descending probs :
  descending probs
    (sortFunc nat (fun i j => cmp.Compare (at_ probs j) (at_ probs i)) (seq 0 (length probs))).
Proof.
  destruct (ranking_spec (at_ probs) (length probs)) as [Hperm Hsorted].
  split; [done|]. eapply StronglySorted_mono; [|exact Hsorted].
  intros a b Hab. simpl in Hab. rewrite <- Compare_key in Hab. lia.
Qed.

(** [computeSoftmax] computes the softmax formula. *)
Lemma computeSoftmax_formula logits :
  computeSoftmax exp Sum logits = spec_softmax exp Sum logits.
Proof. unfold computeSoftmax, spec_softmax, floats.Scale. by rewrite map_map. Qed.

(** C3 (amended): for a non-empty vector without NaN and [p] in [(0, 1)],
    [TopP(p).Sample] keeps a non-empty prefix of the positions ranked by
    descending probability (the softmax [spec_softmax] of the input): the
    smallest prefix whose cumulative probability exceeds [p] when there is
    one, every position otherwise.  Kept positions hold their original scores, the
    others NaN.  On probabilities [0.5, 0.3, 0.15, 0.05] with [p = 0.6] (as a
    float32) the loop cuts after the first two positions. *)
Theorem C3_TopP_keeps_nucleus :
  (forall p logits,
     in_open 0 1 p -> logits <> [] -> Forall (fun x => math.IsNaN x = false) logits ->
     exists ranked m r,
       descending (spec_softmax exp Sum logits) ranked /\
       TopP_Sample exp Sum sortFunc p logits = {| after := r; value := Ok r |} /\
       length r = length logits /\
       0 < m <= length logits /\
       survivors r ≡ₚ take m ranked /\
       survivors r <> [] /\
       (forall i, i ∈ take m ranked -> r !! i = logits !! i) /\
       (forall i, i ∈ drop m ranked -> r !! i = Some nan) /\
       (nucleus p (spec_softmax exp Sum logits) ranked m \/
        (m = length logits /\
         forall m', (p <? cum (spec_softmax exp Sum logits) (take m' ranked) 0)%float = false))) /\
  TopP_cut 0x1.333334p-1 [0.5; 0.3; 0.15; 0.05]%float [0; 1; 2; 3] 0 = [2; 3].
Proof.
  split; [|reflexivity].
  intros p logits Hp Hne Hvalid. rewrite <- computeSoftmax_formula.
  pose proof (ranking_descending (computeSoftmax exp Sum logits)) as Hdesc.
  unfold TopP_Sample. rewrite (in_open_check _ Hp).
  set (probs := computeSoftmax exp Sum logits) in *.
  set (ranked := sortFunc nat _ _) in *.
  assert (ranked ≡ₚ seq 0 (length logits)) as Hperm.
  { destruct Hdesc as [H _]. etrans; [exact H|].
    unfold probs. by rewrite length_computeSoftmax. }
  assert (length ranked = length logits) as Hlen by (by rewrite Hperm, length_seq).
  assert (0 < length logits) as Hpos by (destruct logits; [done | simpl; lia]).
  assert (NoDup ranked) as Hnodup by (rewrite Hperm; apply NoDup_seq).
  assert (forall m, forall a, a ∈ take m ranked -> math.IsNaN (at_ logits a) = false) as Hval.
  { intros m a Ha. apply (subseteq_take m ranked) in Ha.
    rewrite Hperm, elem_of_seq in Ha. simpl in Ha.
    destruct (lookup_lt_is_Some_2 logits a) as [x Hx]; [lia|].
    rewrite (at_lookup _ _ _ Hx). rewrite Forall_forall in Hvalid.
    apply Hvalid. by eapply list_elem_of_lookup_2. }
  assert (forall m, 0 < m <= length logits ->
            let r := exclude (drop m ranked) logits in
            length r = length logits /\ survivors r ≡ₚ take m ranked /\ survivors r <> [] /\
            (forall i, i ∈ take m ranked -> r !! i = logits !! i) /\
            (forall i, i ∈ drop m ranked -> r !! i = Some nan)) as Hshape.
  { intros m Hm r.
    assert (survivors r ≡ₚ take m ranked) as Hsp.
    { apply NoDup_Permutation; [apply NoDup_survivors | |].
      - rewrite <- (take_drop m ranked) in Hnodup. by apply NoDup_app in Hnodup as [? _].
      - intros i. apply exclude_suffix_survivors; [done | apply Hval]. }
    split; [apply length_exclude|]. split; [done|]. split; [|split].
    - intros Hnil. apply Permutation_length in Hsp.
      rewrite Hnil, length_take in Hsp. simpl in Hsp. lia.
    - intros i Hi. apply lookup_exclude_notin.
      rewrite <- (take_drop m ranked) in Hnodup.
      apply NoDup_app in Hnodup as (_ & Hdisj & _). by apply Hdisj.
    - intros i Hi. apply lookup_exclude_in; [done|].
      apply (subseteq_drop m ranked) in Hi.
      rewrite Hperm, elem_of_seq in Hi. simpl in Hi. lia. }
  exists ranked.
  destruct (TopP_cut_spec p probs ranked 0%float) as [(m & Hm & -> & Hgt & Hmin)|[-> Hmin]].
  - exists (S m), (exclude (drop (S m) ranked) logits).
    destruct (Hshape (S m)) as (H1 & H2 & H3 & H4 & H5); [lia|].
    repeat (split; [first [done | lia]|]).
    left. split; [done|]. intros [|m'] Hm'; [by apply in_open_positive | apply Hmin; lia].
  - exists (length logits), (exclude (drop (length logits) ranked) logits).
    destruct (Hshape (length logits)) as (H1 & H2 & H3 & H4 & H5); [lia|].
    split; [done|]. split; [by rewrite <- Hlen, drop_all|].
    repeat (split; [first [done | lia]|]).
    right. split; [done|]. intros [|m']; [by apply in_open_positive|].
    destruct (decide (S m' <= length ranked)) as [Hle|Hgt]; [apply Hmin; lia|].
    rewrite take_ge by lia. rewrite <- (take_ge ranked (length ranked)) by lia.
    apply Hmin. lia.
Qed.

(** C4: for [p] in [(0, 1)], [MinP(p).Sample] overwrites with NaN exactly the
    positions whose probability (the softmax [spec_softmax] of the input) is
    strictly below [p] times the maximum probability; a position whose
    probability equals that threshold keeps its score.  The call returns the
    vector it has written into whenever the input is not empty. *)
Theorem C4_MinP_threshold p logits :
  in_open 0 1 p ->
  length (after (MinP_Sample exp Sum sortFunc p logits)) = length logits /\
  (logits <> [] ->
   value (MinP_Sample exp Sum sortFunc p logits) = Ok (after (MinP_Sample exp Sum sortFunc p logits))) /\
  (logits <> [] ->
   exists maxProb,
     max_of (spec_softmax exp Sum logits) maxProb /\
     forall i prob logit,
       spec_softmax exp Sum logits !! i = Some prob -> logits !! i = Some logit ->
       ((prob <? p * maxProb)%float = true ->
        after (MinP_Sample exp Sum sortFunc p logits) !! i = Some nan) /\
       ((prob <? p * maxProb)%float = false ->
        after (MinP_Sample exp Sum sortFunc p logits) !! i = Some logit) /\
       ((prob =? p * maxProb)%float = true ->
        after (MinP_Sample exp Sum sortFunc p logits) !! i = Some logit)).
Proof.
  intros Hp. rewrite <- computeSoftmax_formula.
  unfold MinP_Sample. rewrite (in_open_check _ Hp).
  pose proof (length_computeSoftmax logits) as Hlen.
  set (probs := computeSoftmax exp Sum logits) in *.
  destruct (sortFunc_sorts float cmp.Compare probs) as [Hperm Hsorted].
  specialize (Hsorted Compare_strict_weak).
  destruct (last (sortFunc float cmp.Compare probs)) as [maxProb|] eqn:Hlast; simpl.
  - assert (max_of probs maxProb) as Hmax.
    { apply last_Some in Hlast as [l' Hl']. rewrite Hl' in Hsorted, Hperm.
      assert (maxProb ∈ l' ++ [maxProb]) as Hin
        by (apply elem_of_app; right; by apply list_elem_of_singleton).
      split; [by rewrite <- Hperm|].
      intros x Hx Hxn. rewrite <- Hperm in Hx.
      assert (~ key_lt (fkey maxProb) (fkey x)) as Hk.
      { apply elem_of_app in Hx as [Hx|Hx].
        - pose proof (StronglySorted_app_1_elem_of _ _ _ x maxProb Hsorted Hx) as H.
          unfold slices.less in H. rewrite Compare_key in H.
          apply H. by apply list_elem_of_singleton.
        - apply list_elem_of_singleton in Hx as ->. apply key_lt_irrefl. }
      assert (math.IsNaN maxProb = false) as Hmn.
      { destruct (math.IsNaN maxProb) eqn:E; [|done]. destruct Hk. by apply key_NaN_least. }
      split; [done|]. by apply leb_key. }
    split; [by rewrite length_zip_with_r_eq|]. split; [done|].
    intros _. exists maxProb. split; [done|].
    intros i prob logit Hprob Hlogit.
    rewrite lookup_zip_with, Hprob, Hlogit. simpl.
    split; [by intros ->|]. split; [by intros ->|].
    by intros ->%eqb_not_ltb.
  - apply last_None in Hlast. apply Permutation_length in Hperm.
    rewrite Hlast in Hperm. simpl in Hperm.
    assert (logits = []) as -> by (destruct logits; [done | simpl in *; lia]).
    split; [done|]. split; done.
Qed.


End sample_correct.

(** ** Concrete runs

    The library parameters are instantiated by the portable [math.Exp], the
    portable loop of [floats.Sum] (on at most three terms), the insertion
    sort that [slices.SortFunc] runs on short slices, and the draw of the
    first item. *)

Lemma Exp_NaN : math.Exp nan = nan.
Proof. reflexivity. Qed.

(** An earlier strategy changes what the selection sees: on [[1000.0, 0.0]]
    the softmax stage leaves [[NaN, 0]], and the selection returns index 1,
    where the selection on the input itself returns index 0. *)
Lemma C1_witness :
  Sample math.Exp floats.Sum (@slices.insertionSortCmpFunc) sampleuv.take_first
    [1000; 0]%float ([Softmax] ++ Temperature 0 :: [TopK 1]) = Ok [1%float] /\
  thread math.Exp floats.Sum (@slices.insertionSortCmpFunc) sampleuv.take_first
    [1000; 0]%float [Softmax] = Ok [nan; 0%float] /\
  value (greedy_Sample [1000; 0]%float) = Ok [0%float].
Proof.
  split; [|split; reflexivity].
  refine (eq_trans (proj1 (C1_zero_temperature_returns_greedy
                             math.Exp floats.Sum (@slices.insertionSortCmpFunc)
                             sampleuv.take_first)
                      [1000; 0]%float [Softmax] [TopK 1] 0%float _ _) _).
  - repeat constructor.
  - reflexivity.
  - reflexivity.
Defined.

(** C1, as stated, fails when a strategy before the [Temperature(0)] fails:
    [Sample] returns that failure, not a selection. *)
Lemma C1_counterexample :
  Sample math.Exp floats.Sum (@slices.insertionSortCmpFunc) sampleuv.take_first
    [2; 9; 4]%float [TopK 0; Temperature 0; TopK 1] = Err "k must be positive".
Proof. reflexivity. Defined.

Lemma C2_witness :
  exists r,
    TopK_Sample (@slices.insertionSortCmpFunc) 2 [3; 1; 2]%float = {| after := r; value := Ok r |} /\
    Z.of_nat (length (survivors r)) = 2%Z.
Proof.
  destruct (proj2 (C2_TopK_keeps_k_largest
                     (@slices.insertionSortCmpFunc) insertionSort_sorts [3; 1; 2]%float 2))
    as (r & Hr & _ & Hk & _).
  - simpl. lia.
  - vm_compute. discriminate.
  - exists r. split; [exact Hr | exact Hk].
Defined.

(** C2, as stated, fails on a vector that already holds NaN: with two of the
    three positions excluded, [TopK(2)] leaves one score, not two.  It also
    fails for [k = 0] on the empty vector, where [k >= length] and the call
    is an error. *)
Lemma C2_counterexample :
  ((0 < 2 < Z.of_nat (length [nan; nan; 1%float]))%Z /\
   TopK_Sample (@slices.insertionSortCmpFunc) 2 [nan; nan; 1%float] =
     {| after := [nan; nan; 1%float]; value := Ok [nan; nan; 1%float] |} /\
   length (survivors [nan; nan; 1%float]) = 1) /\
  ((Z.of_nat (length (@nil float)) <= 0)%Z /\
   TopK_Sample (@slices.insertionSortCmpFunc) 0 [] = fail [] "k must be positive").
Proof.
  repeat split; try reflexivity; simpl; lia.
Defined.

Lemma C3_witness :
  exists ranked m r,
    descending (spec_softmax math.Exp floats.Sum [0; -1; -0.5]%float) ranked /\
    TopP_Sample math.Exp floats.Sum (@slices.insertionSortCmpFunc) 0.5 [0; -1; -0.5]%float =
      {| after := r; value := Ok r |} /\
    survivors r ≡ₚ take m ranked.
Proof.
  destruct (proj1 (C3_TopP_keeps_nucleus math.Exp floats.Sum (@slices.insertionSortCmpFunc)
                     insertionSort_sorts) 0.5%float [0; -1; -0.5]%float)
    as (ranked & m & r & Hd & Hr & _ & _ & Hs & _).
  - split; reflexivity.
  - discriminate.
  - repeat constructor.
  - exists ranked, m, r. split; [exact Hd | split; [exact Hr | exact Hs]].
Defined.

Lemma cum_NaN_or_zero (l : list nat) : forall c,
  c = 0%float \/ c = nan ->
  cum [nan; 0%float] l c = 0%float \/ cum [nan; 0%float] l c = nan.
Proof.
  induction l as [|idx l IH]; intros c Hc; [done|].
  simpl. apply IH. destruct Hc as [-> | ->]; [|right; apply add_nan_l].
  destruct idx as [|[|idx]]; [by right | by left | by right].
Qed.

(** C3, as stated, fails on the empty vector, where nothing survives, and on
    [[1000.0, 0.0]]: [Exp(1000)] overflows, the probabilities are [[NaN, 0]],
    no prefix of any ranking has a cumulative probability above [p = 0.5],
    and both positions survive. *)
Lemma C3_counterexample :
  survivors (after (TopP_Sample math.Exp floats.Sum (@slices.insertionSortCmpFunc) 0.5 [])) = [] /\
  (TopP_Sample math.Exp floats.Sum (@slices.insertionSortCmpFunc) 0.5 [1000; 0]%float =
     {| after := [1000; 0]%float; value := Ok [1000; 0]%float |} /\
   spec_softmax math.Exp floats.Sum [1000; 0]%float = [nan; 0%float] /\
   forall ranked m, ~ nucleus 0.5 [nan; 0%float] ranked m).
Proof.
  split; [reflexivity|]. split; [reflexivity|]. split; [reflexivity|].
  intros ranked m [Hgt _].
  destruct (cum_NaN_or_zero (take m ranked) 0%float) as [H|H]; [by left | |];
    rewrite H in Hgt; discriminate.
Defined.

(** On [[0, -1, -0.5]] the probabilities are about [[0.51, 0.19, 0.31]]:
    with [p = 0.5] the threshold is about 0.25, and position 1 alone is
    overwritten. *)
Lemma C4_witness :
  after (MinP_Sample math.Exp floats.Sum (@slices.insertionSortCmpFunc) 0.5 [0; -1; -0.5]%float) !! 1 =
    Some nan /\
  after (MinP_Sample math.Exp floats.Sum (@slices.insertionSortCmpFunc) 0.5 [0; -1; -0.5]%float) !! 2 =
    Some (-0.5)%float.
Proof.
  destruct (C4_MinP_threshold math.Exp floats.Sum (@slices.insertionSortCmpFunc)
              insertionSort_sorts 0.5%float [0; -1; -0.5]%float (conj eq_refl eq_refl))
    as (_ & _ & Hthr).
  destruct Hthr as (maxProb & [Hin Hmax] & Hthr); [discriminate|].
  assert (maxProb = at_ (spec_softmax math.Exp floats.Sum [0; -1; -0.5]%float) 0) as ->.
  { pose proof (Hmax (at_ (spec_softmax math.Exp floats.Sum [0; -1; -0.5]%float) 0)) as Hle.
    vm_compute in Hin.
    apply elem_of_cons in Hin as [->|Hin]; [reflexivity|].
    destruct Hle as [_ Hle]; [vm_compute; by left | reflexivity |].
    apply elem_of_cons in Hin as [->|Hin]; [vm_compute in Hle; discriminate|].
    apply elem_of_cons in Hin as [->|Hin]; [vm_compute in Hle; discriminate|].
    by apply elem_of_nil in Hin. }
  destruct (Hthr 1 _ _ eq_refl eq_refl) as (H1 & _).
  destruct (Hthr 2 _ _ eq_refl eq_refl) as (_ & H2 & _).
  split; [apply H1 | apply H2]; reflexivity.
Defined.

(** C5, as stated, fails on the message: on a vector of NaN the error reads
    "no valid tokens found". *)
Lemma C5_counterexample :
  Forall (fun x => math.IsNaN x = true) [nan] /\
  value (weighed_Sample math.Exp floats.Sum sampleuv.take_first [nan]) = Err "no valid tokens found" /\
  value (weighed_Sample math.Exp floats.Sum sampleuv.take_first [nan]) <> Err "no valid tokens".
Proof.
  split; [by repeat constructor|]. split; [reflexivity|].
  vm_compute. discriminate.
Defined.

(** C6, as stated, fails on a NaN configuration value: NaN is outside
    [[0, 2]] and outside [(0, 1)], and no stage rejects it. *)
Lemma C6_counterexample :
  (~ in_closed 0 2 nan /\
   Temperature_Sample nan [1%float] = {| after := [nan]; value := Ok [nan] |}) /\
  (~ in_open 0 1 nan /\
   TopP_Sample math.Exp floats.Sum (@slices.insertionSortCmpFunc) nan [1; 2]%float =
     {| after := [1; 2]%float; value := Ok [1; 2]%float |} /\
   MinP_Sample math.Exp floats.Sum (@slices.insertionSortCmpFunc) nan [1; 2]%float =
     {| after := [1; 2]%float; value := Ok [1; 2]%float |}).
Proof.
  split; (split; [intros [H _]; vm_compute in H; discriminate|]).
  - reflexivity.
  - split; reflexivity.
Defined.



Lemma C8_witness :
  exists ind,
    greedy_Sample [1; 5; 3]%float =
      {| after := [1; 5; 3]%float; value := Ok [float64_of_int ind] |} /\
    argmax_first [1; 5; 3]%float ind.
Proof. apply (proj1 C8_greedy_first_argmax). discriminate. Defined.

Lemma C9_witness :
  computeSoftmax math.Exp floats.Sum [1; nan; 2]%float = replicate 3 nan /\
  softmax_Sample math.Exp floats.Sum [1; nan; 2]%float =
    {| after := [1; nan; 2]%float; value := Ok (replicate 3 nan) |}.
Proof.
  apply (C9_softmax_NaN_everywhere math.Exp floats.Sum Exp_NaN floats_Sum_NaN [1; nan; 2]%float).
  exists nan. split; [repeat constructor | reflexivity].
Defined.

Lemma C10_witness :
  TopP_Sample math.Exp floats.Sum (@slices.insertionSortCmpFunc) 0.5 [1; nan; 2]%float =
    {| after := [1; nan; 2]%float; value := Ok [1; nan; 2]%float |} /\
  MinP_Sample math.Exp floats.Sum (@slices.insertionSortCmpFunc) 0.5 [1; nan; 2]%float =
    {| after := [1; nan; 2]%float; value := Ok [1; nan; 2]%float |} /\
  (forall scores k,
     value (TopK_Sample (@slices.insertionSortCmpFunc) k scores) = Ok [1; nan; 2]%float ->
     Sample math.Exp floats.Sum (@slices.insertionSortCmpFunc) sampleuv.take_first scores
       [TopK k; TopP 0.5] = Ok [1; nan; 2]%float /\
     Sample math.Exp floats.Sum (@slices.insertionSortCmpFunc) sampleuv.take_first scores
       [TopK k; MinP 0.5] = Ok [1; nan; 2]%float).
Proof.
  apply (C10_TopP_MinP_idle_after_exclusion
           math.Exp floats.Sum (@slices.insertionSortCmpFunc) sampleuv.take_first
           Exp_NaN floats_Sum_NaN insertionSort_sorts).
  - split; reflexivity.
  - exists nan. split; [repeat constructor | reflexivity].
Defined.

(** * Further properties of the stages and of the driver *)

(** ** What a stage may write *)

Lemma lookup_exclude_cases drop logits i :
  exclude drop logits !! i = Some nan \/ exclude drop logits !! i = logits !! i.
Proof.
  destruct (decide (i ∈ drop)) as [Hin|Hout]; [|right; by apply lookup_exclude_notin].
  destruct (decide (i < length logits)) as [Hlt|Hge].
  - left. by apply lookup_exclude_in.
  - right. rewrite !lookup_ge_None_2; [done | lia | rewrite length_exclude; lia].
Qed.

Lemma sub_nan_l x : (nan - x)%float = nan.
Proof. apply Prim2SF_inj. rewrite FloatAxioms.sub_spec. reflexivity. Qed.

Lemma div_nan_l x : (nan / x)%float = nan.
Proof. apply Prim2SF_inj. rewrite FloatAxioms.div_spec. reflexivity. Qed.

Lemma exclusions_kept_refl logits : exclusions_kept logits logits.
Proof. by split. Qed.

Lemma exclusions_kept_trans a b c :
  exclusions_kept a b -> exclusions_kept b c -> exclusions_kept a c.
Proof. intros [Hl1 H1] [Hl2 H2]. split; [congruence | auto]. Qed.

Lemma only_excluded_kept logits r :
  length r = length logits ->
  (forall i, r !! i = Some nan \/ r !! i = logits !! i) ->
  exclusions_kept logits r.
Proof.
  intros Hlen Hr. split; [done|]. intros i Hi. destruct (Hr i) as [H|H]; congruence.
Qed.

Section stages.

Context (exp : float -> float).
Context (Sum : list float -> float).
Context (sortFunc : forall A, (A -> A -> Z) -> list A -> list A).
Context (Take : list float -> sampleuv.taken).
Hypothesis exp_NaN : exp nan = nan.
Hypothesis Sum_NaN : forall s, nan ∈ s -> Sum s = nan.
Hypothesis sortFunc_sorts : slices.sorts sortFunc.

Lemma excluding_stage_shape sampler logits r :
  excluding sampler = true ->
  value (Sampler_Sample exp Sum sortFunc Take sampler logits) = Ok r ->
  after (Sampler_Sample exp Sum sortFunc Take sampler logits) = r /\
  length r = length logits /\
  forall i, r !! i = Some nan \/ r !! i = logits !! i.
Proof.
  destruct sampler as [t| |k|p|p| |]; try done; intros _; simpl.
  - unfold TopK_Sample. destruct (k <=? 0)%Z; [done|].
    destruct (Z.of_nat (length logits) <=? k)%Z; simpl; intros [= <-].
    + split; [done|]. split; [done|]. by right.
    + split; [done|]. split; [apply length_exclude | apply lookup_exclude_cases].
  - unfold TopP_Sample. destruct ((p <=? 0)%float || (1 <=? p)%float); [done|].
    simpl. intros [= <-].
    split; [done|]. split; [apply length_exclude | apply lookup_exclude_cases].
  - unfold MinP_Sample. destruct ((p <=? 0)%float || (1 <=? p)%float); [done|].
    destruct (last _) as [maxProb|]; [|done]. simpl. intros [= <-].
    split; [done|].
    assert (length (computeSoftmax exp Sum logits) = length logits) as Hlen
      by (unfold computeSoftmax, floats.Scale; by rewrite !length_map).
    split; [by rewrite length_zip_with_r_eq|].
    intros i. rewrite lookup_zip_with.
    destruct (logits !! i) as [x|] eqn:Hx.
    + destruct (lookup_lt_is_Some_2 (computeSoftmax exp Sum logits) i) as [q ->].
      { rewrite Hlen. by eapply lookup_lt_Some. }
      simpl. destruct (q <? _)%float; [by left | by right].
    + right. by destruct (computeSoftmax exp Sum logits !! i).
Qed.

Lemma reshaping_stage_keeps sampler logits r :
  reshaping sampler = true ->
  value (Sampler_Sample exp Sum sortFunc Take sampler logits) = Ok r ->
  exclusions_kept logits r.
Proof using exp_NaN Sum_NaN.
  intros Hs Hr.
  assert (excluding sampler = true -> exclusions_kept logits r) as Hfilter.
  { intros He. destruct (excluding_stage_shape sampler logits r He Hr) as (_ & Hlen & Hi).
    by apply only_excluded_kept. }
  destruct sampler as [t| |k|p|p| |]; try done; try (by apply Hfilter); clear Hfilter.
  - simpl in Hr. unfold Temperature_Sample in Hr.
    destruct ((t <? 0)%float || (2 <? t)%float); [done|].
    destruct (floats.Max logits) as [m|]; [|done]. simpl in Hr. injection Hr as <-.
    split; [by rewrite length_map|]. intros i Hi.
    change (map ?f logits) with (f <$> logits). rewrite list_lookup_fmap, Hi. simpl.
    by rewrite sub_nan_l, div_nan_l.
  - simpl in Hr. injection Hr as <-. split; [apply length_computeSoftmax|].
    intros i Hi. rewrite computeSoftmax_NaN.
    + apply lookup_replicate_2. by eapply lookup_lt_Some.
    + exact exp_NaN.
    + exact Sum_NaN.
    + apply has_NaN_elem. by eapply list_elem_of_lookup_2.
Qed.

Lemma reshaping_pipeline_keeps samplers : forall logits r,
  Forall (fun sampler => reshaping sampler = true) samplers ->
  no_Temperature0 samplers ->
  Sample exp Sum sortFunc Take logits samplers = Ok r ->
  exclusions_kept logits r.
Proof using exp_NaN Sum_NaN.
  induction samplers as [|sampler samplers IH]; intros logits r Hre Hno; simpl.
  { intros [= <-]. apply exclusions_kept_refl. }
  apply Forall_cons in Hre as [Hs Hre]. apply Forall_cons in Hno as [Hz Hno].
  rewrite Hz.
  destruct (value (Sampler_Sample exp Sum sortFunc Take sampler logits)) as [v| |] eqn:Hv;
    [|done..].
  intros Hr. eapply exclusions_kept_trans.
  - by eapply reshaping_stage_keeps.
  - by apply IH.
Qed.

(** X4: An error or a panic of [Sample] is final: whatever strategies are
    appended to the list, the call ends in the same error, resp. panic, so no
    stage runs after the one that failed. *)
Theorem Sample_failure_is_final pre : forall logits post,
  (forall msg, Sample exp Sum sortFunc Take logits pre = Err msg ->
     Sample exp Sum sortFunc Take logits (pre ++ post) = Err msg) /\
  (Sample exp Sum sortFunc Take logits pre = Panic ->
     Sample exp Sum sortFunc Take logits (pre ++ post) = Panic).
Proof.
  induction pre as [|sampler pre IH]; intros logits post; simpl; [done|].
  destruct (is_Temperature0 sampler); [done|].
  destruct (value (Sampler_Sample exp Sum sortFunc Take sampler logits)) as [v| |]; [|done..].
  apply IH.
Qed.

End stages.

(** ** [Temperature]: the divisor and the maximum *)

Lemma fkey_floor : fkey 1e-7 = (1, -76, 7555786372591432)%Z.
Proof. vm_compute. reflexivity. Qed.

Lemma fkey_two : fkey 2 = (1, -51, 4503599627370496)%Z.
Proof. vm_compute. reflexivity. Qed.

(** [math.Max(t, 1e-7)] for a temperature of the valid range: none of the
    special cases of [math.Max] applies. *)
Lemma temp_floor t :
  in_closed 0 2 t ->
  math.Max t 1e-7 = if (1e-7 <? t)%float then t else 1e-7%float.
Proof.
  intros [H0 H2]. unfold math.Max.
  pose proof H0 as (_ & Hn & _)%leb_key.
  assert ((t =? infinity)%float = false) as ->.
  { destruct (t =? infinity)%float eqn:E; [|done]. apply eqb_key in E as (_ & _ & E).
    apply leb_key in H2 as (_ & _ & H2). destruct H2. rewrite E, fkey_two.
    vm_compute. auto. }
  assert ((1e-7 =? infinity)%float = false) as -> by reflexivity.
  rewrite Hn. simpl.
  assert ((t =? 0)%float && (t =? 1e-7)%float = false) as ->; [|done].
  destruct (t =? 0)%float eqn:E0; [|done]. destruct (t =? 1e-7)%float eqn:E1; [|done].
  apply eqb_key in E0 as (_ & _ & E0). apply eqb_key in E1 as (_ & _ & E1).
  rewrite E0 in E1. vm_compute in E1. discriminate.
Qed.

Lemma valid_temperature_check t :
  in_closed 0 2 t -> (t <? 0)%float || (2 <? t)%float = false.
Proof.
  intros Hin. destruct ((t <? 0)%float || (2 <? t)%float) eqn:E; [|done].
  assert (math.IsNaN t = false) as Hn
    by (destruct Hin as [Hin _]; by apply leb_key in Hin as (_ & ? & _)).
  apply not_in_closed in E; done.
Qed.

Lemma Temperature_Sample_in_range t logits :
  in_closed 0 2 t ->
  exists temp,
    temp = (if (1e-7 <? t)%float then t else 1e-7%float) /\
    in_closed 1e-7 2 temp /\
    Temperature_Sample t logits =
      match floats.Max logits with
      | Some maxLogit => done_in_place (map (fun x => ((x - maxLogit) / temp)%float) logits)
      | None => {| after := logits; value := Panic |}
      end.
Proof.
  intros Hin. eexists. split; [reflexivity|]. split.
  - destruct (1e-7 <? t)%float eqn:E.
    + split; [|by destruct Hin]. apply ltb_key in E as (? & ? & E).
      apply leb_key. repeat split; try done. by apply key_lt_asym.
    + split; reflexivity.
  - unfold Temperature_Sample. by rewrite (valid_temperature_check _ Hin), (temp_floor _ Hin).
Qed.

Lemma sub_self x : is_finite x = true -> (x - x)%float = 0%float.
Proof.
  intros Hf. apply Prim2SF_inj. rewrite FloatAxioms.sub_spec.
  destruct (finite_cases x Hf) as [[s ->]|(s & m & e & ->)].
  - by destruct s.
  - unfold SF64sub, SFsub. rewrite Z.sub_diag. reflexivity.
Qed.

Lemma zero_div x m e : Prim2SF x = S754_finite false m e -> (0 / x)%float = 0%float.
Proof.
  intros Hx. apply Prim2SF_inj. rewrite FloatAxioms.div_spec, Hx. reflexivity.
Qed.

Lemma floor_to_two_finite x :
  in_closed 1e-7 2 x -> exists m e, Prim2SF x = S754_finite false m e.
Proof.
  intros [(_ & _ & Hlo)%leb_key (_ & _ & Hhi)%leb_key].
  rewrite fkey_floor in Hlo. rewrite fkey_two in Hhi.
  unfold fkey, key_lt in *.
  destruct (Prim2SF x) as [[]|[]| |[] m e]; simpl in *; try lia. eauto.
Qed.

(** X7: With a temperature of the valid range and a finite maximum score, the
    position of the maximum (the one [floats.MaxIdx] finds) holds exactly 0
    after [Temperature.Sample]: the largest exponent [Softmax] then sees is
    [Exp(0)]. *)
Theorem Temperature_maximum_becomes_zero t logits ind :
  in_closed 0 2 t ->
  floats.MaxIdx logits = Some ind ->
  is_finite (at_ logits ind) = true ->
  exists r,
    Temperature_Sample t logits = {| after := r; value := Ok r |} /\
    length r = length logits /\
    r !! ind = Some 0%float.
Proof.
  intros Hin Hind Hfin.
  destruct (Temperature_Sample_in_range t logits Hin) as (temp & _ & Htemp & ->).
  unfold floats.Max. rewrite Hind.
  eexists. split; [reflexivity|]. split; [by rewrite length_map|].
  assert (ind < length logits) as Hlt.
  { destruct logits as [|v logits]; [done|].
    destruct (MaxIdx_argmax (v :: logits)) as (ind' & Hind' & Hlt & _); [done|]. congruence. }
  destruct (lookup_lt_is_Some_2 logits ind Hlt) as [x Hx].
  change (map ?f logits) with (f <$> logits). rewrite list_lookup_fmap, Hx. simpl.
  rewrite (at_lookup _ _ _ Hx) in *. rewrite sub_self by done.
  destruct (floor_to_two_finite _ Htemp) as (m & e & Hm). by rewrite (zero_div _ _ _ Hm).
Qed.

(** ** [TopK] and [TopP]: few survivors, repetition, larger parameters *)

Lemma exclude_id drop : forall logits,
  (forall d, d ∈ drop -> d < length logits -> logits !! d = Some nan) ->
  exclude drop logits = logits.
Proof.
  induction drop as [|d drop IH]; intros logits Hd; [done|].
  change (exclude (d :: drop) logits) with (exclude drop (<[d := math.NaN]> logits)).
  rewrite list_insert_id'.
  - apply IH. intros d' Hd'. apply Hd. by right.
  - apply Hd. by left.
Qed.

(** In a ranking of a vector with at most [k] numbers, everything after the
    first [k] positions holds NaN. *)
Lemma ranking_suffix_excluded logits ranked k d :
  ranked ≡ₚ seq 0 (length logits) ->
  StronglySorted (fun a b => ~ key_lt (fkey (at_ logits a)) (fkey (at_ logits b))) ranked ->
  length (survivors logits) <= k ->
  d ∈ drop k ranked -> math.IsNaN (at_ logits d) = true.
Proof.
  intros Hperm Hsorted Hk Hd.
  destruct (math.IsNaN (at_ logits d)) eqn:Hnd; [done|]. exfalso.
  assert (NoDup ranked) as Hnodup by (rewrite Hperm; apply NoDup_seq).
  assert (forall j, j ∈ ranked -> j < length logits) as Hrange.
  { intros j. rewrite Hperm, elem_of_seq. simpl. lia. }
  apply list_elem_of_lookup_1 in Hd as [j Hj]. rewrite lookup_drop in Hj.
  pose proof (lookup_lt_Some _ _ _ Hj) as Hlt.
  rewrite <- (take_drop_middle ranked (k + j) d Hj) in Hsorted, Hnodup, Hrange.
  assert (take (k + j) ranked ++ [d] ⊆+ survivors logits) as Hsub.
  { apply NoDup_submseteq.
    - apply NoDup_app in Hnodup as (Hnodup1 & Hdisj & _).
      apply NoDup_app. split; [done|]. split; [|apply NoDup_singleton].
      intros a Ha Had%list_elem_of_singleton. subst a.
      apply (Hdisj d Ha). by left.
    - intros a Ha. apply elem_of_survivors.
      assert (a < length logits) as Ha_lt.
      { apply Hrange. apply elem_of_app in Ha as [Ha|Ha%list_elem_of_singleton].
        - apply elem_of_app. by left.
        - subst a. apply elem_of_app. right. by left. }
      destruct (lookup_lt_is_Some_2 logits a Ha_lt) as [x Hx]. exists x. split; [done|].
      rewrite <- (at_lookup _ _ _ Hx).
      apply elem_of_app in Ha as [Ha|Ha%list_elem_of_singleton]; [|by subst a].
      destruct (math.IsNaN (at_ logits a)) eqn:Hna; [|done].
      destruct (StronglySorted_app_1_elem_of _ _ _ a d Hsorted Ha); [by left|].
      by apply key_NaN_least. }
  apply submseteq_length in Hsub. rewrite length_app, length_take in Hsub. simpl in Hsub. lia.
Qed.

Lemma survivors_bound logits : length (survivors logits) <= length logits.
Proof.
  unfold survivors. etrans; [apply length_filter|]. by rewrite length_seq.
Qed.

Section filters.

Context (exp : float -> float).
Context (Sum : list float -> float).
Context (sortFunc : forall A, (A -> A -> Z) -> list A -> list A).
Context (Take : list float -> sampleuv.taken).
Hypothesis exp_NaN : exp nan = nan.
Hypothesis Sum_NaN : forall s, nan ∈ s -> Sum s = nan.
Hypothesis sortFunc_sorts : slices.sorts sortFunc.

Lemma TopK_Sample_few_survivors k logits :
  (0 < k)%Z -> (Z.of_nat (length (survivors logits)) <= k)%Z ->
  TopK_Sample sortFunc k logits = {| after := logits; value := Ok logits |}.
Proof.
  intros Hk Hfew. unfold TopK_Sample.
  destruct (k <=? 0)%Z eqn:E; [apply Z.leb_le in E; lia|]. clear E.
  destruct (Z.of_nat (length logits) <=? k)%Z; [done|].
  destruct (ranking_spec sortFunc sortFunc_sorts (at_ logits) (length logits))
    as [Hperm Hsorted].
  rewrite exclude_id; [done|]. intros d Hd Hlt.
  destruct (lookup_lt_is_Some_2 logits d Hlt) as [x Hx]. rewrite Hx. f_equal.
  apply IsNaN_true. rewrite <- (at_lookup _ _ _ Hx).
  eapply ranking_suffix_excluded; [exact Hperm | exact Hsorted | | exact Hd]. lia.
Qed.

Lemma TopK_Sample_survivors_bound k logits r :
  value (TopK_Sample sortFunc k logits) = Ok r ->
  (0 < k)%Z /\ (Z.of_nat (length (survivors r)) <= k)%Z.
Proof.
  unfold TopK_Sample.
  destruct (k <=? 0)%Z eqn:E; [done|]. apply Z.leb_gt in E.
  destruct (Z.of_nat (length logits) <=? k)%Z eqn:E2; simpl; intros [= <-]; (split; [done|]).
  - apply Z.leb_le in E2. pose proof (survivors_bound logits). lia.
  - destruct (sortFunc_sorts nat (fun i j => cmp.Compare (at_ logits j) (at_ logits i))
                (seq 0 (length logits))) as [Hperm _].
    set (ranked := sortFunc nat _ _) in *.
    assert (survivors (exclude (drop (Z.to_nat k) ranked) logits) ⊆+ take (Z.to_nat k) ranked)
      as Hsub.
    { apply NoDup_submseteq; [apply NoDup_survivors|]. intros i Hi.
      apply elem_of_survivors in Hi as (x & Hx & Hn).
      assert (i < length logits) as Hlt.
      { apply lookup_lt_Some in Hx. by rewrite length_exclude in Hx. }
      assert (i ∈ ranked) as Hir by (rewrite Hperm, elem_of_seq; simpl; lia).
      rewrite <- (take_drop (Z.to_nat k) ranked) in Hir.
      apply elem_of_app in Hir as [Hir|Hir]; [done|].
      rewrite lookup_exclude_in in Hx by done. by injection Hx as <-. }
    apply submseteq_length in Hsub. rewrite length_take in Hsub. lia.
Qed.

(** X8: [TopK(k)] changes nothing when at most [k] positions of the vector hold
    a score: the positions it overwrites already hold NaN. *)
Theorem TopK_idle_when_few_survive k logits :
  (0 < k)%Z -> (Z.of_nat (length (survivors logits)) <= k)%Z ->
  TopK_Sample sortFunc k logits = {| after := logits; value := Ok logits |}.
Proof. exact (TopK_Sample_few_survivors k logits). Qed.

(** X9: At most [k] positions hold a score after [TopK(k)], so a second [TopK]
    with the same or a larger [k] changes nothing: the pipeline
    [TopK(k), TopK(k2)] returns what [TopK(k)] returns. *)
Theorem TopK_then_larger_TopK_is_TopK k k2 logits r :
  (k <= k2)%Z ->
  value (TopK_Sample sortFunc k logits) = Ok r ->
  (Z.of_nat (length (survivors r)) <= k)%Z /\
  TopK_Sample sortFunc k2 r = {| after := r; value := Ok r |} /\
  Sample exp Sum sortFunc Take logits [TopK k; TopK k2] = Ok r.
Proof.
  intros Hle Hr. destruct (TopK_Sample_survivors_bound k logits r Hr) as [Hk Hb].
  assert (TopK_Sample sortFunc k2 r = {| after := r; value := Ok r |}) as H2
    by (apply TopK_Sample_few_survivors; lia).
  split; [done|]. split; [done|]. simpl. by rewrite Hr, H2.
Qed.

(** X10: A larger [k] keeps more: a score that [TopK(k1)] leaves in place is left
    in place by [TopK(k2)] for every [k2 >= k1].  This holds for any sort. *)
Theorem TopK_larger_k_keeps_more k1 k2 logits r1 r2 :
  (k1 <= k2)%Z ->
  value (TopK_Sample sortFunc k1 logits) = Ok r1 ->
  value (TopK_Sample sortFunc k2 logits) = Ok r2 ->
  forall i x, r1 !! i = Some x -> math.IsNaN x = false -> r2 !! i = Some x.
Proof.
  intros Hle. unfold TopK_Sample.
  destruct (k1 <=? 0)%Z eqn:E1; [done|]. apply Z.leb_gt in E1.
  destruct (k2 <=? 0)%Z eqn:E2; [apply Z.leb_le in E2; lia|]. clear E2.
  set (ranked := sortFunc nat _ _).
  assert (forall drop i x, exclude drop logits !! i = Some x -> math.IsNaN x = false ->
            logits !! i = Some x /\ i ∉ drop) as Hkept.
  { intros drop i x Hx Hn. split.
    - destruct (lookup_exclude_cases drop logits i) as [H|H]; [|congruence].
      rewrite H in Hx. by injection Hx as <-.
    - intros Hin. rewrite lookup_exclude_in in Hx; [by injection Hx as <- | done |].
      apply lookup_lt_Some in Hx. by rewrite length_exclude in Hx. }
  destruct (Z.of_nat (length logits) <=? k1)%Z eqn:L1.
  { apply Z.leb_le in L1.
    destruct (Z.of_nat (length logits) <=? k2)%Z eqn:L2; [|apply Z.leb_gt in L2; lia].
    simpl. by intros [= <-] [= <-]. }
  destruct (Z.of_nat (length logits) <=? k2)%Z eqn:L2; simpl; intros [= <-] [= <-] i x Hx Hn.
  - by apply Hkept in Hx as [? _].
  - apply Hkept in Hx as [Hx Hout]; [|done].
    rewrite lookup_exclude_notin; [done|]. intros Hin. apply Hout.
    replace (Z.to_nat k2) with (Z.to_nat k1 + (Z.to_nat k2 - Z.to_nat k1)) in Hin by lia.
    rewrite <- drop_drop in Hin. by apply (subseteq_drop _ _) in Hin.
Qed.

End filters.

Lemma TopP_cut_subset p probs l : forall c i, i ∈ TopP_cut p probs l c -> i ∈ l.
Proof.
  induction l as [|idx rest IH]; intros c i; simpl; [done|].
  destruct (p <? c + at_ probs idx)%float; [by right|].
  intros Hi. right. by eapply IH.
Qed.

Lemma TopP_cut_mono p1 p2 probs l : forall c i,
  (p1 <=? p2)%float = true ->
  i ∈ TopP_cut p2 probs l c -> i ∈ TopP_cut p1 probs l c.
Proof.
  induction l as [|idx rest IH]; intros c i Hle; simpl; [done|].
  destruct (p2 <? c + at_ probs idx)%float eqn:E2.
  - assert ((p1 <? c + at_ probs idx)%float = true) as ->; [|done].
    apply leb_key in Hle as (Hn1 & _ & Hle). apply ltb_key in E2 as (_ & Hnc & E2).
    apply ltb_key. repeat split; try done.
    destruct (key_lt_negtrans _ (fkey p1) _ E2); done.
  - destruct (p1 <? c + at_ probs idx)%float; [|by apply IH].
    apply TopP_cut_subset.
Qed.

Lemma fmap_filter_commute {A B} (f : A -> B) (P : B -> Prop) `{forall y, Decision (P y)}
    (l : list A) :
  filter P (f <$> l) = f <$> filter (fun a => P (f a)) l.
Proof.
  induction l as [|a l IH]; [done|]. rewrite fmap_cons, !filter_cons.
  destruct (decide (P (f a))); by rewrite IH.
Qed.

Lemma survivors_cons x logits :
  survivors (x :: logits) =
  if math.IsNaN x then S <$> survivors logits else 0 :: (S <$> survivors logits).
Proof.
  unfold survivors. change (length (x :: logits)) with (S (length logits)).
  rewrite <- cons_seq, filter_cons, <- fmap_S_seq, fmap_filter_commute.
  change (at_ (x :: logits) 0) with x.
  destruct (decide (math.IsNaN x = false)) as [->|Hx]; [done|].
  by destruct (math.IsNaN x).
Qed.

(** The loop of [weighed.Sample] collects exactly the surviving positions,
    in index order, and their scores. *)
Lemma compact_survivors logits : forall i,
  compact i logits = (at_ logits <$> survivors logits, Nat.add i <$> survivors logits).
Proof.
  induction logits as [|x logits IH]; intros i; [done|].
  simpl. rewrite IH, survivors_cons.
  assert (at_ (x :: logits) <$> (S <$> survivors logits) = at_ logits <$> survivors logits) as H1.
  { rewrite <- list_fmap_compose. by apply list_fmap_ext. }
  assert (Nat.add i <$> (S <$> survivors logits) = Nat.add (S i) <$> survivors logits) as H2.
  { rewrite <- list_fmap_compose. apply list_fmap_ext. intros j k _. simpl. lia. }
  destruct (math.IsNaN x); rewrite ?fmap_cons, H1, H2; [done|].
  by rewrite Nat.add_0_r.
Qed.

Section selections.

Context (exp : float -> float).
Context (Sum : list float -> float).
Context (sortFunc : forall A, (A -> A -> Z) -> list A -> list A).
Context (Take : list float -> sampleuv.taken).
Hypothesis exp_NaN : exp nan = nan.
Hypothesis Sum_NaN : forall s, nan ∈ s -> Sum s = nan.
Hypothesis sortFunc_sorts : slices.sorts sortFunc.

(** X1: [TopK], [TopP] and [MinP] return the slice they were given, of the same
    length, and each position holds either its original score or NaN:
    a filter never changes a score and never writes anything but the
    excluded marker.  This needs nothing of the sort or of [Exp]. *)
Theorem filters_only_exclude sampler logits r :
  excluding sampler = true ->
  value (Sampler_Sample exp Sum sortFunc Take sampler logits) = Ok r ->
  after (Sampler_Sample exp Sum sortFunc Take sampler logits) = r /\
  length r = length logits /\
  forall i, r !! i = Some nan \/ r !! i = logits !! i.
Proof. exact (excluding_stage_shape exp Sum sortFunc Take sampler logits r). Qed.

(** X2: A position that holds NaN when a stage starts holds NaN in what the stage
    returns, and the length is the same, for every stage but the two
    selections: [Temperature] computes [(NaN - max) / temp], [Softmax]
    turns the whole vector into NaN, the filters only write NaN. *)
Theorem stage_never_reinstates sampler logits r :
  reshaping sampler = true ->
  value (Sampler_Sample exp Sum sortFunc Take sampler logits) = Ok r ->
  exclusions_kept logits r.
Proof. exact (reshaping_stage_keeps exp Sum sortFunc Take exp_NaN Sum_NaN sampler logits r). Qed.

(** X3: Exclusions persist through a whole pipeline: when no strategy of the list is a
    selection or [Temperature(0)] and [Sample] returns a vector, that vector
    has the length of the input and holds NaN wherever the input did. *)
Theorem pipeline_never_reinstates samplers : forall logits r,
  Forall (fun sampler => reshaping sampler = true) samplers ->
  no_Temperature0 samplers ->
  Sample exp Sum sortFunc Take logits samplers = Ok r ->
  exclusions_kept logits r.
Proof. exact (reshaping_pipeline_keeps exp Sum sortFunc Take exp_NaN Sum_NaN samplers). Qed.

(** X11: A larger [p] keeps more: a score that [TopP(p1)] leaves in place is left
    in place by [TopP(p2)] for every [p2 >= p1].  This holds for any sort
    and any [Exp]. *)
Theorem TopP_larger_p_keeps_more p1 p2 logits r1 r2 :
  (p1 <=? p2)%float = true ->
  value (TopP_Sample exp Sum sortFunc p1 logits) = Ok r1 ->
  value (TopP_Sample exp Sum sortFunc p2 logits) = Ok r2 ->
  forall i x, r1 !! i = Some x -> math.IsNaN x = false -> r2 !! i = Some x.
Proof.
  intros Hle. unfold TopP_Sample.
  destruct ((p1 <=? 0)%float || (1 <=? p1)%float); [done|].
  destruct ((p2 <=? 0)%float || (1 <=? p2)%float); [done|].
  simpl. set (probs := computeSoftmax exp Sum logits). set (ranked := sortFunc nat _ _).
  intros [= <-] [= <-] i x Hx Hn.
  assert (i < length logits) as Hlt.
  { apply lookup_lt_Some in Hx. by rewrite length_exclude in Hx. }
  assert (i ∉ TopP_cut p1 probs ranked 0) as Hout.
  { intros Hin. rewrite lookup_exclude_in in Hx by done. by injection Hx as <-. }
  rewrite lookup_exclude_notin in Hx by done.
  rewrite lookup_exclude_notin; [done|]. intros Hin. by apply Hout, (TopP_cut_mono p1 p2).
Qed.

(** [weighed.Sample] in terms of the surviving positions. *)
Lemma weighed_draws_among_survivors_aux logits :
  weighed_Sample exp Sum Take logits =
  match survivors logits with
  | [] => fail logits "no valid tokens found"
  | _ =>
      match Take (computeSoftmax exp Sum (at_ logits <$> survivors logits)) with
      | sampleuv.Took v =>
          match survivors logits !! v with
          | Some idx => {| after := logits; value := Ok [float64_of_int idx] |}
          | None => {| after := logits; value := Panic |}
          end
      | sampleuv.NotTaken => fail logits "weighed sampler failed"
      | sampleuv.TakePanic => {| after := logits; value := Panic |}
      end
  end.
Proof.
  unfold weighed_Sample. rewrite compact_survivors.
  assert (Nat.add 0 <$> survivors logits = survivors logits) as ->.
  { etrans; [|apply list_fmap_id]. by apply list_fmap_ext. }
  by destruct (survivors logits).
Qed.

(** X14: The empty vector: [Temperature], [MinP] and [greedy] panic (and so does a
    pipeline that reaches [Temperature(0)]), [Softmax], [TopK] and [TopP]
    return the empty vector, [weighed] reports that no token is valid. *)
Theorem empty_vector_behaviour t k p :
  (in_closed 0 2 t -> value (Temperature_Sample t []) = Panic) /\
  value (softmax_Sample exp Sum []) = Ok [] /\
  ((0 < k)%Z -> value (TopK_Sample sortFunc k []) = Ok []) /\
  (in_open 0 1 p -> value (TopP_Sample exp Sum sortFunc p []) = Ok []) /\
  (in_open 0 1 p -> value (MinP_Sample exp Sum sortFunc p []) = Panic) /\
  value (weighed_Sample exp Sum Take []) = Err "no valid tokens found" /\
  value (greedy_Sample []) = Panic /\
  (forall post, (t =? 0)%float = true ->
     Sample exp Sum sortFunc Take [] (Temperature t :: post) = Panic).
Proof.
  repeat split.
  - intros Hin. unfold Temperature_Sample. by rewrite (valid_temperature_check _ Hin).
  - intros Hk. unfold TopK_Sample.
    destruct (k <=? 0)%Z eqn:E; [apply Z.leb_le in E; lia|].
    destruct (Z.of_nat (length (@nil float)) <=? k)%Z eqn:E2; [done|].
    apply Z.leb_gt in E2. simpl in E2. lia.
  - intros Hp. unfold TopP_Sample. rewrite (in_open_check _ Hp). simpl. f_equal.
    apply nil_length_inv. by rewrite length_exclude.
  - intros Hp. unfold MinP_Sample. rewrite (in_open_check _ Hp).
    destruct (sortFunc_sorts float cmp.Compare (computeSoftmax exp Sum [])) as [Hperm _].
    apply Permutation_nil_r in Hperm. by rewrite Hperm.
  - intros post Ht. simpl. by rewrite Ht.
Qed.

(** X15: A selection at the end of a pipeline of reshaping stages returns a
    position that survived: when the stages before it (none of them a
    selection or [Temperature(0)]) leave the vector [v], [weighed] returns
    only positions that hold a score in [v], [greedy] does so whenever [v]
    holds a score at all, and such a position held no NaN in the input. *)
Theorem pipeline_selects_a_survivor logits pre v :
  Forall (fun sampler => reshaping sampler = true) pre ->
  no_Temperature0 pre ->
  Sample exp Sum sortFunc Take logits pre = Ok v ->
  (forall i, i ∈ survivors v -> i ∈ survivors logits) /\
  (forall r, Sample exp Sum sortFunc Take logits (pre ++ [Weighed]) = Ok r ->
     exists idx, r = [float64_of_int idx] /\ idx ∈ survivors v) /\
  (survivors v <> [] ->
     exists idx, Sample exp Sum sortFunc Take logits (pre ++ [Greedy]) = Ok [float64_of_int idx] /\
                 idx ∈ survivors v).
Proof.
  intros Hre Hno Hv.
  destruct (reshaping_pipeline_keeps exp Sum sortFunc Take exp_NaN Sum_NaN pre logits v Hre Hno Hv)
    as [Hlen Hkeep].
  split; [|split].
  - intros i (x & Hx & Hn)%elem_of_survivors. apply elem_of_survivors.
    destruct (lookup_lt_is_Some_2 logits i) as [y Hy].
    { rewrite <- Hlen. by eapply lookup_lt_Some. }
    exists y. split; [done|]. destruct (math.IsNaN y) eqn:Hny; [|done].
    apply IsNaN_true in Hny as ->. rewrite (Hkeep i Hy) in Hx. by injection Hx as <-.
  - intros r. rewrite (Sample_app exp Sum sortFunc Take), Hv by done. simpl.
    rewrite weighed_draws_among_survivors_aux.
    destruct (survivors v) as [|s0 sv] eqn:Hsv; [done|].
    destruct (Take _) as [n| |]; [|done..].
    destruct ((s0 :: sv) !! n) as [idx|] eqn:Hn; [|done]. simpl. intros [= <-].
    exists idx. split; [done|]. by eapply list_elem_of_lookup_2.
  - intros Hsv. rewrite (Sample_app exp Sum sortFunc Take), Hv by done. simpl.
    assert (v <> []) as Hne by (intros ->; by apply Hsv).
    destruct (MaxIdx_argmax v Hne) as (ind & Hind & Hlt & Harg & _).
    unfold greedy_Sample. rewrite Hind. simpl. exists ind. split; [done|].
    destruct (survivors v) as [|j sv] eqn:Hj; [done|].
    assert (j ∈ survivors v) as (x & Hx & Hn)%elem_of_survivors by (rewrite Hj; by left).
    destruct (Harg j x Hx Hn) as (m & Hm & Hmn & _).
    rewrite <- Hj. apply elem_of_survivors. by exists m.
Qed.

End selections.

(** X6: For a temperature in [[0, 2]] the divisor of [Temperature.Sample] is the
    temperature itself when it is above [1e-7] and [1e-7] otherwise: a number
    between [1e-7] and 2, so the stage never divides by zero, also when it is
    called with temperature 0. *)
Theorem Temperature_divisor t logits :
  in_closed 0 2 t ->
  exists temp,
    temp = (if (1e-7 <? t)%float then t else 1e-7%float) /\
    in_closed 1e-7 2 temp /\
    Temperature_Sample t logits =
      match floats.Max logits with
      | Some maxLogit => done_in_place (map (fun x => ((x - maxLogit) / temp)%float) logits)
      | None => {| after := logits; value := Panic |}
      end.
Proof. exact (Temperature_Sample_in_range t logits). Qed.

(** ** [TopP]: a single candidate *)

Section nucleus_of_one.

Context (exp : float -> float).
Context (Sum : list float -> float).
Context (sortFunc : forall A, (A -> A -> Z) -> list A -> list A).
Hypothesis sortFunc_sorts : slices.sorts sortFunc.

(** X12: When the highest probability alone exceeds [p], [TopP(p)] leaves one
    candidate: on a non-empty vector there is a position [top] of maximal
    probability (the softmax [spec_softmax] of the input) such that, if
    [0 + probs[top] > p], the result holds the original score at [top] and
    NaN at every other position. *)
Theorem TopP_single_candidate p logits :
  in_open 0 1 p -> logits <> [] ->
  exists top r,
    top < length logits /\
    (forall j, j < length logits ->
       (0 <= cmp.Compare (at_ (spec_softmax exp Sum logits) top)
                         (at_ (spec_softmax exp Sum logits) j))%Z) /\
    TopP_Sample exp Sum sortFunc p logits = {| after := r; value := Ok r |} /\
    ((p <? 0 + at_ (spec_softmax exp Sum logits) top)%float = true ->
     r !! top = logits !! top /\
     forall j, j < length logits -> j <> top -> r !! j = Some nan).
Proof.
  intros Hp Hne. rewrite <- computeSoftmax_formula.
  destruct (ranking_descending sortFunc sortFunc_sorts (computeSoftmax exp Sum logits))
    as [Hperm Hsorted].
  unfold TopP_Sample. rewrite (in_open_check _ Hp).
  set (probs := computeSoftmax exp Sum logits) in *.
  set (ranked := sortFunc nat _ _) in *.
  assert (length probs = length logits) as Hlen by apply length_computeSoftmax.
  rewrite Hlen in Hperm.
  assert (NoDup ranked) as Hnodup by (rewrite Hperm; apply NoDup_seq).
  assert (forall j, j ∈ ranked <-> j < length logits) as Hrange.
  { intros j. rewrite Hperm, elem_of_seq. simpl. lia. }
  destruct ranked as [|top rest] eqn:Hranked.
  { destruct logits; [done|]. apply Permutation_length in Hperm. done. }
  exists top, (exclude (TopP_cut p probs (top :: rest) 0) logits).
  apply NoDup_cons in Hnodup as [Htop _].
  apply StronglySorted_inv in Hsorted as [_ Hall]. rewrite Forall_forall in Hall.
  split; [apply Hrange; by left|]. split; [|split; [done|]].
  - intros j Hj. apply Hrange, elem_of_cons in Hj as [->|Hj]; [|by apply Hall].
    assert (~ (cmp.Compare (at_ probs top) (at_ probs top) < 0)%Z); [|lia].
    rewrite Compare_key. apply key_lt_irrefl.
  - intros Hgt. simpl. rewrite Hgt. split.
    + by apply lookup_exclude_notin.
    + intros j Hj Hne'. apply lookup_exclude_in; [|done].
      apply Hrange, elem_of_cons in Hj as [->|Hj]; done.
Qed.

End nucleus_of_one.

(** ** Composition of pipelines *)

Section composition.

Context (exp : float -> float).
Context (Sum : list float -> float).
Context (sortFunc : forall A, (A -> A -> Z) -> list A -> list A).
Context (Take : list float -> sampleuv.taken).

(** X5: Running the strategies [pre ++ post] is running [pre] and then [post] on
    what [pre] returned, as long as [pre] holds no [Temperature(0)]; when it
    holds one, the strategies of [post] are never run. *)
Theorem Sample_composition logits pre post :
  (no_Temperature0 pre ->
   Sample exp Sum sortFunc Take logits (pre ++ post) =
   match Sample exp Sum sortFunc Take logits pre with
   | Ok v => Sample exp Sum sortFunc Take v post
   | Err msg => Err msg
   | Panic => Panic
   end) /\
  (~ no_Temperature0 pre ->
   Sample exp Sum sortFunc Take logits (pre ++ post) = Sample exp Sum sortFunc Take logits pre).
Proof.
  split; [apply Sample_app|].
  revert logits. induction pre as [|sampler pre IH]; intros logits Hz; simpl.
  { destruct Hz. constructor. }
  destruct (is_Temperature0 sampler) eqn:E; [done|].
  destruct (value (Sampler_Sample exp Sum sortFunc Take sampler logits)); [|done..].
  apply IH. intros Hpre. apply Hz. by constructor.
Qed.

End composition.

(** ** Concrete runs of the further properties *)

Lemma filters_only_exclude_witness :
  after (Sampler_Sample math.Exp floats.Sum (@slices.insertionSortCmpFunc) sampleuv.take_first
           (TopK 2) [3; 1; 2]%float) = [3; nan; 2]%float.
Proof.
  apply (filters_only_exclude math.Exp floats.Sum (@slices.insertionSortCmpFunc) sampleuv.take_first
           (TopK 2) [3; 1; 2]%float [3; nan; 2]%float); reflexivity.
Defined.

Lemma stage_never_reinstates_witness :
  exclusions_kept [nan; 1; 3]%float [nan; -4; 0]%float.
Proof.
  apply (stage_never_reinstates math.Exp floats.Sum (@slices.insertionSortCmpFunc) sampleuv.take_first
           Exp_NaN floats_Sum_NaN (Temperature 0.5) [nan; 1; 3]%float [nan; -4; 0]%float); reflexivity.
Defined.

Lemma pipeline_never_reinstates_witness :
  exclusions_kept [nan; 1; 3; 2]%float [nan; nan; 0; -2]%float.
Proof.
  apply (pipeline_never_reinstates math.Exp floats.Sum (@slices.insertionSortCmpFunc) sampleuv.take_first
           Exp_NaN floats_Sum_NaN [Temperature 0.5; TopK 2] [nan; 1; 3; 2]%float [nan; nan; 0; -2]%float).
  - repeat constructor.
  - repeat constructor.
  - vm_compute. reflexivity.
Defined.

Lemma Sample_failure_is_final_witness :
  Sample math.Exp floats.Sum (@slices.insertionSortCmpFunc) sampleuv.take_first
    [1; 2]%float ([TopK 1; TopP 1] ++ [Greedy]) = Err "p must be between 0 and 1".
Proof.
  apply (proj1 (Sample_failure_is_final math.Exp floats.Sum (@slices.insertionSortCmpFunc)
                  sampleuv.take_first [TopK 1; TopP 1] [1; 2]%float [Greedy])).
  vm_compute. reflexivity.
Defined.

Lemma Temperature_divisor_witness :
  exists temp,
    temp = 1e-7%float /\ in_closed 1e-7 2 temp /\
    Temperature_Sample 0 [2; 9; 4]%float =
      done_in_place (map (fun x => ((x - 9) / temp)%float) [2; 9; 4]%float).
Proof.
  destruct (Temperature_divisor 0 [2; 9; 4]%float) as (temp & Ht & Hr & Hs).
  - split; reflexivity.
  - exists temp. split; [exact Ht | split; [exact Hr | exact Hs]].
Defined.

Lemma Temperature_maximum_becomes_zero_witness :
  exists r,
    Temperature_Sample 0.5 [2; 9; 4]%float = {| after := r; value := Ok r |} /\
    length r = 3 /\ r !! 1 = Some 0%float.
Proof.
  apply (Temperature_maximum_becomes_zero 0.5 [2; 9; 4]%float 1).
  - split; reflexivity.
  - reflexivity.
  - reflexivity.
Defined.

Lemma TopK_idle_when_few_survive_witness :
  TopK_Sample (@slices.insertionSortCmpFunc) 2 [nan; 5; nan; 1]%float =
    {| after := [nan; 5; nan; 1]%float; value := Ok [nan; 5; nan; 1]%float |}.
Proof.
  apply (TopK_idle_when_few_survive (@slices.insertionSortCmpFunc) insertionSort_sorts).
  - lia.
  - vm_compute. discriminate.
Defined.

Lemma TopK_then_larger_TopK_witness :
  Sample math.Exp floats.Sum (@slices.insertionSortCmpFunc) sampleuv.take_first
    [3; 1; 2; 5]%float [TopK 2; TopK 3] = Ok [3; nan; nan; 5]%float.
Proof.
  apply (TopK_then_larger_TopK_is_TopK math.Exp floats.Sum (@slices.insertionSortCmpFunc)
           sampleuv.take_first insertionSort_sorts 2 3).
  - lia.
  - vm_compute. reflexivity.
Defined.

Lemma TopK_larger_k_keeps_more_witness :
  [3; nan; 2; 5]%float !! 3 = Some 5%float.
Proof.
  apply (TopK_larger_k_keeps_more (@slices.insertionSortCmpFunc) 2 3
           [3; 1; 2; 5]%float [3; nan; nan; 5]%float [3; nan; 2; 5]%float).
  - lia.
  - vm_compute. reflexivity.
  - vm_compute. reflexivity.
  - reflexivity.
  - reflexivity.
Defined.

Lemma TopP_larger_p_keeps_more_witness :
  [0; nan; -0.5]%float !! 0 = Some 0%float.
Proof.
  apply (TopP_larger_p_keeps_more math.Exp floats.Sum (@slices.insertionSortCmpFunc) 0.5 0.75
           [0; -1; -0.5]%float [0; nan; nan]%float [0; nan; -0.5]%float).
  - reflexivity.
  - vm_compute. reflexivity.
  - vm_compute. reflexivity.
  - reflexivity.
  - reflexivity.
Defined.

Lemma empty_vector_behaviour_witness :
  value (MinP_Sample math.Exp floats.Sum (@slices.insertionSortCmpFunc) 0.5 []) = Panic.
Proof.
  destruct (empty_vector_behaviour math.Exp floats.Sum (@slices.insertionSortCmpFunc)
              sampleuv.take_first insertionSort_sorts 1 1 0.5) as (_ & _ & _ & _ & H & _).
  apply H. split; reflexivity.
Defined.

Lemma pipeline_selects_a_survivor_witness :
  exists idx,
    Sample math.Exp floats.Sum (@slices.insertionSortCmpFunc) sampleuv.take_first
      [1; 3; 2]%float ([Temperature 0.5; TopK 2] ++ [Greedy]) = Ok [float64_of_int idx] /\
    idx ∈ survivors [nan; 0; -2]%float.
Proof.
  apply (pipeline_selects_a_survivor math.Exp floats.Sum (@slices.insertionSortCmpFunc)
           sampleuv.take_first Exp_NaN floats_Sum_NaN [1; 3; 2]%float [Temperature 0.5; TopK 2]
           [nan; 0; -2]%float).
  - repeat constructor.
  - repeat constructor.
  - vm_compute. reflexivity.
  - vm_compute. discriminate.
Defined.

Lemma Sample_composition_witness :
  Sample math.Exp floats.Sum (@slices.insertionSortCmpFunc) sampleuv.take_first
    [1; 3; 2]%float ([Temperature 0; TopK 2] ++ [TopK 0]) =
  Sample math.Exp floats.Sum (@slices.insertionSortCmpFunc) sampleuv.take_first
    [1; 3; 2]%float [Temperature 0; TopK 2].
Proof.
  apply (proj2 (Sample_composition math.Exp floats.Sum (@slices.insertionSortCmpFunc)
                  sampleuv.take_first [1; 3; 2]%float [Temperature 0; TopK 2] [TopK 0])).
  intros H. apply Forall_cons in H as [H _]. vm_compute in H. discriminate.
Defined.

(** On [[0, -1, -5]] the first position has probability about 0.73: with
    [p = 0.5] it alone is kept. *)
Lemma TopP_single_candidate_witness :
  exists r,
    TopP_Sample math.Exp floats.Sum (@slices.insertionSortCmpFunc) 0.5 [0; -1; -5]%float =
      {| after := r; value := Ok r |} /\
    r !! 0 = Some 0%float /\ r !! 1 = Some nan /\ r !! 2 = Some nan.
Proof.
  destruct (TopP_single_candidate math.Exp floats.Sum (@slices.insertionSortCmpFunc)
              insertionSort_sorts 0.5 [0; -1; -5]%float)
    as (top & r & Ht & Hmax & Hr & Hone).
  - split; reflexivity.
  - discriminate.
  - assert (top = 0) as ->.
    { assert (0 < 3) as H0 by lia. specialize (Hmax 0 H0).
      destruct top as [|[|[|top]]]; [done | | | simpl in Ht; lia];
        vm_compute in Hmax; exfalso; by apply Hmax. }
    destruct Hone as [H0 Hrest]; [reflexivity|].
    exists r. split; [exact Hr|]. split; [exact H0|].
    split; apply Hrest; simpl; lia.
Defined.
